(** * eCFR snapshot analyzer (app.py): a shallow embedding and its properties

    The program fetches a point-in-time snapshot of a regulatory title,
    flattens its XML into plain text and computes lexical metrics on it.

    Modelling conventions.
    - A Python [str] is a [string]; one [ascii] stands for one code point
      below 256 (the Latin-1 range), on which [str.lower], [str.isspace]
      and the regular expression class [[a-zA-Z]] are tabulated below.
    - Python integers are unbounded: counts are in [Z].
    - A [dict] read only through its keys is a [gmap string Z]; the
      [Counter] of [get_top_words], whose iteration order decides ties,
      is an association list in insertion order.
    - The HTTP provider and the XML parser are outside the program: they
      are the variables of [Section Service].
    - Exceptions are explicit results. *)

From stdpp Require Import gmap strings list fin_maps fin_sets.
From Stdlib Require Import ZArith Ascii String Lia.

Local Open Scope string_scope.
Local Open Scope Z_scope.

(** ** Characters *)

Module Char.

Definition code (c : ascii) : N := N_of_ascii c.

Definition in_range (lo hi : N) (c : ascii) : bool :=
  ((lo <=? code c) && (code c <=? hi))%N.

(** [str.isspace] on one code point below 256: TAB..CR, FS..US, SPACE,
    NEL (0x85) and NBSP (0xA0). [str.split()] and [str.strip()] use it. *)
Definition isspace (c : ascii) : bool :=
  in_range 9 13 c || in_range 28 32 c || (code c =? 133)%N || (code c =? 160)%N.

Definition is_upper_ascii (c : ascii) : bool := in_range 65 90 c.
Definition is_lower_ascii (c : ascii) : bool := in_range 97 122 c.

(** The character class [[a-zA-Z]] of [re.findall]. *)
Definition is_alpha (c : ascii) : bool := is_upper_ascii c || is_lower_ascii c.

(** Upper-case letters of Latin-1 outside ASCII: 0xC0..0xDE except the
    multiplication sign 0xD7. *)
Definition is_upper_latin1 (c : ascii) : bool :=
  in_range 192 222 c && negb (code c =? 215)%N.

(** [str.lower] on one code point below 256; each of them has a single
    code point as its lower case, so on these texts lowercasing works
    character by character and keeps the length (beyond 255 it need
    not: U+0130 has a lower case of two code points). *)
Definition lower (c : ascii) : ascii :=
  if is_upper_ascii c || is_upper_latin1 c
  then ascii_of_N (code c + 32)
  else c.

End Char.

(** ** Strings *)

Module Str.

Fixpoint forallb (p : ascii → bool) (s : string) : bool :=
  match s with
  | "" => true
  | String c s' => p c && forallb p s'
  end.

(** [s.lower()], for a text of code points below 256 *)
Fixpoint lower (s : string) : string :=
  match s with
  | "" => ""
  | String c s' => String (Char.lower c) (lower s')
  end.

(** Does [s] begin with a character satisfying [p]? *)
Definition starts (p : ascii → bool) (s : string) : bool :=
  match s with
  | "" => false
  | String c _ => p c
  end.

Definition emit (cur : string) : list string :=
  match cur with
  | "" => []
  | _ => [cur]
  end.

(** A left-to-right scanner that collects the maximal runs of characters
    satisfying [keep]; [cur] is the run being read. Both [str.split()]
    and [re.findall(r"[a-zA-Z]+", _)] are instances of it. *)
Fixpoint scan (keep : ascii → bool) (cur : string) (s : string) : list string :=
  match s with
  | "" => emit cur
  | String c s' =>
      if keep c then scan keep (cur +:+ String c "") s'
      else emit cur ++ scan keep "" s'
  end.

(** [s.split()]: split on runs of whitespace, no empty tokens. *)
Definition split (s : string) : list string :=
  scan (λ c, negb (Char.isspace c)) "" s.

(** [re.findall(r"[a-zA-Z]+", s)] *)
Definition findall_alpha (s : string) : list string :=
  scan Char.is_alpha "" s.

(** [s.lstrip()], [s.rstrip()], [s.strip()] *)
Fixpoint lstrip (s : string) : string :=
  match s with
  | "" => ""
  | String c s' => if Char.isspace c then lstrip s' else s
  end.

Fixpoint rstrip (s : string) : string :=
  match s with
  | "" => ""
  | String c s' =>
      match rstrip s' with
      | "" => if Char.isspace c then "" else String c ""
      | r => String c r
      end
  end.

Definition strip (s : string) : string := rstrip (lstrip s).

(** [sep.join(l)] *)
Fixpoint join (sep : string) (l : list string) : string :=
  match l with
  | [] => ""
  | [x] => x
  | x :: l' => x +:+ sep +:+ join sep l'
  end.

(** [s.split(sep)] for a one-character separator: empty fields are kept
    and the result is never empty. *)
Fixpoint split_on (sep : ascii) (s : string) : list string :=
  match s with
  | "" => [""]
  | String c s' =>
      if decide (c = sep) then "" :: split_on sep s'
      else match split_on sep s' with
           | w :: l => String c w :: l
           | [] => [String c ""]
           end
  end.

Fixpoint drop (n : nat) (s : string) : string :=
  match n, s with
  | O, _ => s
  | S n', String _ s' => drop n' s'
  | S _, "" => ""
  end.

(** The scan behind [s.count(sub)] for a non-empty [sub]: positions are
    tried from left to right; after a match the search resumes behind
    it, which [skip] (the number of characters still covered by the
    last match) implements. *)
Fixpoint count_go (sub : string) (skip : nat) (s : string) : nat :=
  match s with
  | "" => 0
  | String _ s' =>
      match skip with
      | S k => count_go sub k s'
      | O =>
          if String.prefix sub s
          then S (count_go sub (String.length sub - 1) s')
          else count_go sub 0 s'
      end
  end.

(** [s.count(sub)]: the number of non-overlapping occurrences of [sub]
    in [s]; for the empty [sub] Python answers [len(s) + 1]. *)
Definition count (s sub : string) : Z :=
  match sub with
  | "" => Z.of_nat (String.length s) + 1
  | _ => Z.of_nat (count_go sub 0 s)
  end.

End Str.

(** ** Exceptions as results *)

Inductive exn : Type :=
| RequestError (msg : string)     (* raised by requests: transport, status, JSON *)
| ValueError (msg : string)
| KeyError (key : string)
| XMLSyntaxError (msg : string).  (* raised by etree.fromstring *)

(** [str(e)] *)
Definition str_exn (e : exn) : string :=
  match e with
  | RequestError msg | ValueError msg | XMLSyntaxError msg => msg
  | KeyError key => "'" +:+ key +:+ "'"
  end.

Inductive result (A : Type) : Type :=
| Ok (a : A)
| Raise (e : exn).
Arguments Ok {A} a.
Arguments Raise {A} e.

Definition result_bind {A B : Type} (f : A → result B) (r : result A) : result B :=
  match r with
  | Ok a => f a
  | Raise e => Raise e
  end.

#[global] Instance result_mbind : MBind result := @result_bind.
#[global] Instance result_mret : MRet result := @Ok.

(** ** The markup tree, as lxml presents it

    Every node carries its leading [text] (the character data before its
    first child) and its [tail] (the character data between its end and
    the next sibling or the parent's end). *)

#[local] Unset Elimination Schemes.
Inductive element : Type :=
| Element (tag : string) (text : option string)
          (children : list element) (tail : option string).
#[local] Set Elimination Schemes.

Definition elem_text (e : element) : option string :=
  match e with Element _ t _ _ => t end.
Definition elem_tail (e : element) : option string :=
  match e with Element _ _ _ t => t end.
Definition elem_children (e : element) : list element :=
  match e with Element _ _ ch _ => ch end.

(** [root.iter()]: the node, then its descendants, in document order. *)
Fixpoint iter (e : element) : list element :=
  match e with
  | Element _ _ ch _ => e :: flat_map iter ch
  end.

(** The body of the loop of [parse_ecfr_xml]:
    [if elem.text: text_fragments.append(elem.text.strip())]. *)
Definition append_fragment (text_fragments : list string) (elem : element) : list string :=
  match elem_text elem with
  | Some (String _ _ as t) => text_fragments ++ [Str.strip t]
  | Some "" | None => text_fragments
  end.

(** [parse_ecfr_xml] behind the call of [etree.fromstring]. *)
Definition parse_ecfr_tree (root : element) : string :=
  let text_fragments := foldl append_fragment [] (iter root) in
  Str.join " " text_fragments.

(** ** Lexical analysis *)

(** A [Counter]: keys in the order of their first insertion. *)
Definition counter : Type := list (string * Z).

(** [c[k] += 1] *)
Fixpoint counter_incr (k : string) (c : counter) : counter :=
  match c with
  | [] => [(k, 1)]
  | (k', v) :: c' =>
      if decide (k = k') then (k', v + 1) :: c'
      else (k', v) :: counter_incr k c'
  end.

(** [Counter(iterable)] *)
Definition Counter (l : list string) : counter :=
  foldl (λ c k, counter_incr k c) [] l.

(** Insertion into a list sorted by descending count; [x] stood before the
    elements of [l] in the input, so it stays before those of equal count. *)
Fixpoint insert_desc (x : string * Z) (l : list (string * Z)) : list (string * Z) :=
  match l with
  | [] => [x]
  | y :: l' => if x.2 <? y.2 then y :: insert_desc x l' else x :: l
  end.

(** [sorted(items, key=itemgetter(1), reverse=True)]: a stable sort. *)
Definition sorted_desc (l : list (string * Z)) : list (string * Z) :=
  foldr insert_desc [] l.

(** [counts.most_common(n)] for an integer [n]: [heapq.nlargest(n, items,
    key=itemgetter(1))], which is [sorted(items, key, reverse=True)[:n]]
    and empty for [n <= 0]. *)
Definition most_common (c : counter) (n : Z) : list (string * Z) :=
  take (Z.to_nat n) (sorted_desc c).

Definition stopwords : list string :=
  ["the"; "and"; "of"; "to"; "in"; "a"; "for"; "on"; "is"; "that"; "with";
   "by"; "at"; "an"; "be"; "are"; "as"; "or"; "this"].

(** [t not in stopwords and len(t) > 1] *)
Definition keep_token (t : string) : bool :=
  bool_decide (t ∉ stopwords) && bool_decide (1 < String.length t)%nat.

(** The token stream of [get_top_words]. *)
Definition tokens_of (text : string) : list string :=
  let text_lower := Str.lower text in
  Str.findall_alpha text_lower.

Definition filtered_of (text : string) : list string :=
  List.filter keep_token (tokens_of text).

Definition get_top_words (text : string) (n : Z) : list (string * Z) :=
  let filtered := filtered_of text in
  let counts := Counter filtered in
  most_common counts n.

Record analysis : Type := Analysis {
  word_count : Z;
  agencies : gmap string Z;
  top_words : list (string * Z)
}.

Definition agencies_to_check : list string :=
  ["NCPC"; "OMB"; "OPM"; "NARA"; "CIO"].

Definition analyze_ecfr_text (text : string) : analysis :=
  let words := Str.split text in
  let word_count := Z.of_nat (List.length words) in
  let agency_counts :=
    foldl (λ (agency_counts : gmap string Z) agency,
             <[agency := Str.count text agency]> agency_counts)
          ∅ agencies_to_check in
  let top_words := get_top_words text 10 in
  {| word_count := word_count; agencies := agency_counts; top_words := top_words |}.

(** ** Snapshots and their comparison *)

Record snapshot : Type := Snapshot {
  snap_date : string;
  snap_title : string;
  snap_analysis : analysis
}.

Record comparison : Type := Comparison {
  word_count_change : Z;
  agencies_diff : gmap string Z
}.

(** [d.get(k, 0)] *)
Definition get0 (d : gmap string Z) (k : string) : Z := default 0 (d !! k).

Definition compare_two_snapshots (snapshot_a snapshot_b : snapshot) : comparison :=
  let a := agencies (snap_analysis snapshot_a) in
  let b := agencies (snap_analysis snapshot_b) in
  let all_agencies : gset string := dom a ∪ dom b in
  {| word_count_change :=
       word_count (snap_analysis snapshot_b) - word_count (snap_analysis snapshot_a);
     agencies_diff :=
       set_fold (λ agency (agencies_diff : gmap string Z),
                   let old_count := get0 a agency in
                   let new_count := get0 b agency in
                   <[agency := new_count - old_count]> agencies_diff)
                ∅ all_agencies |}.

(** The two snapshots of the comparison example. *)
Definition snapshot_A : snapshot :=
  Snapshot "2022-01-01" "1" (Analysis 100 {[ "OMB" := 2 ]} []).
Definition snapshot_B : snapshot :=
  Snapshot "2023-01-01" "1" (Analysis 120 {[ "OMB" := 5 ]} []).

(** ** Keyword search, behind the fetch *)

(** [[k.strip() for k in keywords_param.split(",") if k.strip()]] *)
Definition keywords_of (keywords_param : string) : list string :=
  map Str.strip
      (List.filter (λ k, negb (Str.strip k =? "")%string)
                   (Str.split_on "," keywords_param)).

(** The loop that fills [frequencies]. *)
Definition keyword_frequencies (text_data : string) (keywords_list : list string)
  : gmap string Z :=
  let text_lower := Str.lower text_data in
  foldl (λ (frequencies : gmap string Z) kw,
           let kw_lower := Str.lower kw in
           let freq := Str.count text_lower kw_lower in
           <[kw := freq]> frequencies)
        ∅ keywords_list.

(** ** Selecting the latest snapshot date *)

(** One entry of the provider's version list: a JSON object. *)
Definition version : Type := gmap string string.


(** [fetch_latest_snapshot_date] behind [resp.json()]. *)
Definition latest_date_of (data : list version) : result string :=
  match data with
  | [] => Raise (ValueError "No version data found for this title.")
  | first :: _ =>
      match first !! "date" with
      | Some latest_date => Ok latest_date
      | None => Raise (KeyError "date")
      end
  end.

(** ** The service: routes over the provider and the last-result slot *)

Inductive response : Type :=
| RespAnalysis (analysisResult : snapshot)                 (* 200 *)
| RespComparison (snapshotA snapshotB : snapshot) (c : comparison)
| RespKeywords (date title : string) (keywords : list string)
               (frequencies : gmap string Z)
| RespNoResults                                            (* 404 *)
| RespError (error : string).                              (* 500 *)

Section Service.

(** [requests.get(url, timeout=30)] followed by [raise_for_status()]
    and [resp.text], respectively [resp.json()]. *)
Variable get_text : string → result string.
Variable get_json : string → result (list version).
(** [etree.fromstring(xml_string.encode("utf-8"))] *)
Variable fromstring : string → result element.

Definition fetch_ecfr_xml (date_str title_num : string) : result string :=
  let base_url := "https://www.ecfr.gov/api/versioner/v1/full" in
  let url := base_url +:+ "/" +:+ date_str +:+ "/title-" +:+ title_num +:+ ".xml" in
  get_text url.

Definition fetch_latest_snapshot_date (title_num : string) : result string :=
  let url := "https://www.ecfr.gov/api/versioner/v1/versions/title-"
             +:+ title_num +:+ ".json" in
  data ← get_json url;
  latest_date_of data.

Definition parse_ecfr_xml (xml_string : string) : result string :=
  root ← fromstring xml_string;
  mret (parse_ecfr_tree root).

Definition parse_and_analyze_ecfr_xml (xml_string : string) : result analysis :=
  text ← parse_ecfr_xml xml_string;
  mret (analyze_ecfr_text text).

(** The global [analysis_result]. *)
Definition store : Type := option snapshot.

(** A route body under [try ... except Exception as e]: the exception
    leaves the slot as it was when the body started. *)
Definition analyze (date title : option string) (analysis_result : store)
  : response * store :=
  let date_str := default "2025-01-01" date in
  let title_num := default "1" title in
  match (xml_data ← fetch_ecfr_xml date_str title_num;
         parse_and_analyze_ecfr_xml xml_data) with
  | Ok analysis_data =>
      let new_result := Snapshot date_str title_num analysis_data in
      (RespAnalysis new_result, Some new_result)
  | Raise e => (RespError (str_exn e), analysis_result)
  end.

Definition latest_analyze (title : option string) (analysis_result : store)
  : response * store :=
  let title_num := default "1" title in
  match (latest_date ← fetch_latest_snapshot_date title_num;
         xml_data ← fetch_ecfr_xml latest_date title_num;
         analysis_data ← parse_and_analyze_ecfr_xml xml_data;
         mret (latest_date, analysis_data)) with
  | Ok (latest_date, analysis_data) =>
      let new_result := Snapshot latest_date title_num analysis_data in
      (RespAnalysis new_result, Some new_result)
  | Raise e => (RespError (str_exn e), analysis_result)
  end.

Definition results (analysis_result : store) : response :=
  match analysis_result with
  | None => RespNoResults
  | Some r => RespAnalysis r
  end.

Definition compare (date1 date2 title : option string) : response :=
  let date1 := default "2022-01-01" date1 in
  let date2 := default "2023-01-01" date2 in
  let title_num := default "1" title in
  match (xml_a ← fetch_ecfr_xml date1 title_num;
         analysis_a ← parse_and_analyze_ecfr_xml xml_a;
         xml_b ← fetch_ecfr_xml date2 title_num;
         analysis_b ← parse_and_analyze_ecfr_xml xml_b;
         mret (Snapshot date1 title_num analysis_a,
               Snapshot date2 title_num analysis_b)) with
  | Ok (snapshot_a, snapshot_b) =>
      RespComparison snapshot_a snapshot_b
                     (compare_two_snapshots snapshot_a snapshot_b)
  | Raise ex => RespError (str_exn ex)
  end.

Definition keyword_search (date title keywords : option string) : response :=
  let date_str := default "2025-01-01" date in
  let title_num := default "1" title in
  let keywords_param := default "" keywords in
  let keywords_list := keywords_of keywords_param in
  match (xml_data ← fetch_ecfr_xml date_str title_num;
         parse_ecfr_xml xml_data) with
  | Ok text_data =>
      RespKeywords date_str title_num keywords_list
                   (keyword_frequencies text_data keywords_list)
  | Raise ex => RespError (str_exn ex)
  end.

End Service.

(** ** Specification-side definitions *)

(** [maximal_runs keep s l]: [l] lists, from left to right, the maximal
    non-empty runs of characters of [s] that satisfy [keep]. A run is
    maximal when what follows it does not begin with a kept character;
    what precedes it is skipped character by character, so it ends in a
    character that is not kept. *)
Inductive maximal_runs (keep : ascii → bool) : string → list string → Prop :=
| mr_nil : maximal_runs keep "" []
| mr_skip c s l :
    keep c = false →
    maximal_runs keep s l →
    maximal_runs keep (String c s) l
| mr_run w s l :
    w ≠ "" →
    Str.forallb keep w = true →
    Str.starts keep s = false →
    maximal_runs keep s l →
    maximal_runs keep (w +:+ s) (w :: l).

(** [occurrences sub s n]: [s] contains [n] pairwise non-overlapping
    occurrences of [sub]. *)
Inductive occurrences (sub : string) : string → nat → Prop :=
| occ_end s : occurrences sub s 0
| occ_skip c s n : occurrences sub s n → occurrences sub (String c s) n
| occ_hit s n : occurrences sub s n → occurrences sub (sub +:+ s) (S n).

(** The index of the first occurrence of [w] in [l] ([length l] when there
    is none). *)
Fixpoint first_index (w : string) (l : list string) : nat :=
  match l with
  | [] => 0
  | x :: l' => if decide (x = w) then 0%nat else S (first_index w l')
  end.

(** [R] relates every element of [l] to every later one. *)
Definition ordered {A : Type} (R : A → A → Prop) (l : list A) : Prop :=
  ∀ i j x y, l !! i = Some x → l !! j = Some y → (i < j)%nat → R x y.

(** The order of the most-common list over a token stream: a larger count
    first, and among equal counts the token seen first in the stream. *)
Definition ranks_before (stream : list string) (x y : string * Z) : Prop :=
  y.2 < x.2 ∨ (x.2 = y.2 ∧ (first_index x.1 stream < first_index y.1 stream)%nat).

(** The number of occurrences of [w] in [l]. *)
Definition occ_count (w : string) (l : list string) : Z :=
  Z.of_nat (List.length (List.filter (λ x, bool_decide (x = w)) l)).

(** The same tree with every tail rewritten by [f]. *)
Fixpoint map_tails (f : option string → option string) (e : element) : element :=
  match e with
  | Element tag text ch tail => Element tag text (map (map_tails f) ch) (f tail)
  end.

(** The leading texts of the nodes, in document order. *)
Definition leading_texts (root : element) : list string :=
  omap (λ e, match elem_text e with
             | Some (String _ _ as t) => Some (Str.strip t)
             | _ => None
             end) (iter root).

(** Two keywords are case variants of each other. *)
Definition case_variant (w w' : string) : Prop := Str.lower w = Str.lower w'.

(** [s] has no whitespace at either end: stripping leaves it as it is. *)
Definition stripped (s : string) : Prop :=
  Str.lstrip s = s ∧ Str.rstrip s = s.

(** What [results] answers after the requests [reqs] to [analyze], served
    one after the other from the slot [slot]; a request is a date and a
    title, each possibly absent. *)
Definition results_after
    (get_text : string → result string) (fromstring : string → result element)
    (reqs : list (option string * option string)) (slot : store) : response :=
  results (foldl (λ s req, (analyze get_text fromstring req.1 req.2 s).2) slot reqs).

(** The snapshot that a request to [analyze] computes, if it succeeds. *)
Definition snapshot_of
    (get_text : string → result string) (fromstring : string → result element)
    (req : option string * option string) : option snapshot :=
  match analyze get_text fromstring req.1 req.2 None with
  | (RespAnalysis r, _) => Some r
  | _ => None
  end.

(** ** The primitives on small inputs *)

Example split_example :
  Str.split "  The OMB  reviewed" = ["The"; "OMB"; "reviewed"].
Proof. reflexivity. Qed.

Example findall_example :
  Str.findall_alpha "abc123def, x" = ["abc"; "def"; "x"].
Proof. reflexivity. Qed.

Example strip_example : Str.strip "   World  " = "World".
Proof. reflexivity. Qed.

Example count_example :
  Str.count "aaaa" "aa" = 2 ∧ Str.count "The OMB reviewed OMB policy." "OMB" = 2
  ∧ Str.count "abc" "" = 4.
Proof. repeat split; reflexivity. Qed.

Example split_on_example :
  Str.split_on "," "a,,b c," = ["a"; ""; "b c"; ""].
Proof. reflexivity. Qed.

Example top_words_example :
  get_top_words "The rule and the Rule of a RULE, b2b; agency rule-making agency" 10
  = [("rule", 4); ("agency", 2); ("making", 1)].
Proof. vm_compute. reflexivity. Qed.

(** ** Strings: basic facts *)

Lemma str_app_nil_l (s : string) : "" +:+ s = s.
Proof. reflexivity. Qed.

Lemma str_app_cons (c : ascii) (s t : string) : String c s +:+ t = String c (s +:+ t).
Proof. reflexivity. Qed.

Lemma str_app_nil_r (s : string) : s +:+ "" = s.
Proof. induction s as [|c s IH]; [done|]. by rewrite str_app_cons, IH. Qed.

Lemma str_app_assoc (s t u : string) : (s +:+ t) +:+ u = s +:+ (t +:+ u).
Proof. induction s as [|c s IH]; [done|]. by rewrite !str_app_cons, IH. Qed.

Lemma str_app_length (s t : string) :
  String.length (s +:+ t) = (String.length s + String.length t)%nat.
Proof. induction s as [|c s IH]; [done|]. rewrite str_app_cons. simpl. by rewrite IH. Qed.

Lemma str_forallb_app (p : ascii → bool) (s t : string) :
  Str.forallb p (s +:+ t) = Str.forallb p s && Str.forallb p t.
Proof.
  induction s as [|c s IH]; [done|].
  rewrite str_app_cons. simpl. rewrite IH. by destruct (p c).
Qed.

Lemma str_forallb_impl (p q : ascii → bool) (s : string) :
  (∀ c, p c = true → q c = true) →
  Str.forallb p s = true → Str.forallb q s = true.
Proof.
  intros Hpq. induction s as [|c s IH]; [done|]. simpl.
  intros [Hc Hs]%andb_true_iff. rewrite (Hpq c Hc). simpl. auto.
Qed.

(** ** The scanner computes the maximal runs *)

Section Runs.

Variable keep : ascii → bool.

Lemma emit_nonempty (cur : string) : cur ≠ "" → Str.emit cur = [cur].
Proof. by destruct cur. Qed.

Lemma app_nonempty_r (s : string) (c : ascii) : s +:+ String c "" ≠ "".
Proof. by destruct s. Qed.

(** The scanner finds maximal runs, whatever run it is in the middle of. *)
Lemma scan_sound (s : string) :
  maximal_runs keep s (Str.scan keep "" s)
  ∧ ∀ cur, cur ≠ "" → Str.forallb keep cur = true →
      maximal_runs keep (cur +:+ s) (Str.scan keep cur s).
Proof.
  induction s as [|c s [IHe IHc]].
  - split; [constructor|]. intros cur Hne Hk. simpl.
    rewrite emit_nonempty by done.
    by apply mr_run; [..|constructor].
  - assert (Hskip : keep c = false →
              maximal_runs keep (String c s) (Str.scan keep "" s)).
    { intros Hc. by apply mr_skip. }
    split.
    + simpl. destruct (keep c) eqn:Hc; [|by apply Hskip].
      change (String c s) with (String c "" +:+ s).
      rewrite str_app_nil_l. apply IHc; [done|]. simpl. by rewrite Hc.
    + intros cur Hne Hk. simpl. destruct (keep c) eqn:Hc.
      * replace (cur +:+ String c s) with ((cur +:+ String c "") +:+ s)
          by (by rewrite str_app_assoc).
        apply IHc; [apply app_nonempty_r|].
        rewrite str_forallb_app, Hk. simpl. by rewrite Hc.
      * rewrite emit_nonempty by done. simpl.
        apply mr_run; auto.
Qed.

(** Reading a whole run and stopping where it ends. *)
Lemma scan_run (w s cur : string) :
  Str.forallb keep w = true → Str.starts keep s = false →
  Str.scan keep cur (w +:+ s) = (Str.emit (cur +:+ w) ++ Str.scan keep "" s)%list.
Proof.
  revert cur. induction w as [|a w IH]; intros cur Hw Hs.
  - rewrite str_app_nil_l, str_app_nil_r. destruct s as [|c s]; simpl.
    + by rewrite (right_id_L [] (++)%list).
    + simpl in Hs. by rewrite Hs.
  - simpl in Hw. apply andb_true_iff in Hw as [Ha Hw].
    rewrite str_app_cons. simpl. rewrite Ha, IH by done.
    by rewrite str_app_assoc.
Qed.

(** The maximal runs are unique: they are what the scanner returns. *)
Lemma maximal_runs_unique (s : string) (l : list string) :
  maximal_runs keep s l → l = Str.scan keep "" s.
Proof.
  induction 1 as [|c s l Hc _ IH|w s l Hne Hw Hs _ IH].
  - done.
  - simpl. by rewrite Hc.
  - rewrite scan_run, str_app_nil_l, emit_nonempty by done. simpl. by f_equal.
Qed.

Lemma maximal_runs_iff (s : string) (l : list string) :
  maximal_runs keep s l ↔ l = Str.scan keep "" s.
Proof.
  split; [apply maximal_runs_unique|]. intros ->. apply scan_sound.
Qed.

(** A character that is not kept separates the runs on its two sides. *)
Lemma scan_app_sep (u v : string) (c : ascii) :
  keep c = false →
  Str.scan keep "" (u +:+ String c v)
  = (Str.scan keep "" u ++ Str.scan keep "" v)%list.
Proof.
  intros Hc.
  cut (∀ cur, Str.scan keep cur (u +:+ String c v)
              = (Str.scan keep cur u ++ Str.scan keep "" v)%list); [done|].
  induction u as [|a u IH]; intros cur.
  - rewrite str_app_nil_l. simpl. by rewrite Hc.
  - rewrite str_app_cons. simpl. destruct (keep a); [apply IH|].
    by rewrite IH, (assoc_L (++)).
Qed.

(** Every run consists of kept characters and is not empty. *)
Lemma maximal_runs_kept (s : string) (l : list string) :
  maximal_runs keep s l →
  Forall (λ w, w ≠ "" ∧ Str.forallb keep w = true) l.
Proof. induction 1; auto. Qed.

(** A property of all characters of the text holds of the runs' too. *)
Lemma maximal_runs_chars (q : ascii → bool) (s : string) (l : list string) :
  maximal_runs keep s l → Str.forallb q s = true →
  Forall (λ w, Str.forallb q w = true) l.
Proof.
  induction 1 as [|c s l _ _ IH|w s l _ _ _ _ IH]; intros Hq.
  - constructor.
  - simpl in Hq. apply andb_true_iff in Hq as [_ Hq]. auto.
  - rewrite str_forallb_app in Hq. apply andb_true_iff in Hq as [Hw Hq]. auto.
Qed.

End Runs.

(** ** Characters: facts checked on all 256 code points *)

Ltac by_computation := vm_compute; repeat split; first [reflexivity | discriminate | done].

Ltac all_chars c :=
  destruct c as [[] [] [] [] [] [] [] []]; vm_compute; try reflexivity; try discriminate.

Lemma lower_not_upper (c : ascii) : Char.is_upper_ascii (Char.lower c) = false.
Proof. all_chars c. Qed.

Lemma lower_idem (c : ascii) : Char.lower (Char.lower c) = Char.lower c.
Proof. all_chars c. Qed.

Lemma lower_alpha (c : ascii) : Char.is_alpha (Char.lower c) = Char.is_alpha c.
Proof. all_chars c. Qed.

Lemma alpha_not_upper (c : ascii) :
  Char.is_alpha c = true → Char.is_upper_ascii c = false →
  Char.is_lower_ascii c = true.
Proof. unfold Char.is_alpha. intros H1 H2. by rewrite H2 in H1. Qed.

Lemma str_lower_app (s t : string) :
  Str.lower (s +:+ t) = Str.lower s +:+ Str.lower t.
Proof.
  induction s as [|c s IH]; [done|]. rewrite str_app_cons. simpl.
  by rewrite IH.
Qed.

Lemma str_lower_idem (s : string) : Str.lower (Str.lower s) = Str.lower s.
Proof. induction s as [|c s IH]; [done|]. simpl. by rewrite lower_idem, IH. Qed.

Lemma str_lower_no_upper (s : string) :
  Str.forallb (λ c, negb (Char.is_upper_ascii c)) (Str.lower s) = true.
Proof.
  induction s as [|c s IH]; [done|]. simpl. by rewrite lower_not_upper, IH.
Qed.

(** ** The token stream of the top-words computation *)

(** C1, refuted as stated: the word abc123def does contribute tokens, its
    two alphabetic runs. *)
Lemma tokens_of_mixed_word :
  tokens_of "abc123def" = ["abc"; "def"]
  ∧ get_top_words "abc123def" 10 = [("abc", 1); ("def", 1)]
  ∧ tokens_of "abc123def" ≠ [].
Proof. by vm_compute. Qed.

(** C1, amended: the token stream is the list of the maximal runs of ASCII
    letters of the lowercased text, and nothing else is such a list; a
    character [c] that is not an ASCII letter (a digit, a punctuation mark)
    inside a word cuts it into the tokens on its left and the tokens on
    its right instead of removing the word. *)
Theorem tokens_of_maximal_runs (text u v : string) (c : ascii) :
  Char.is_alpha c = false →
  (∀ l, maximal_runs Char.is_alpha (Str.lower text) l ↔ l = tokens_of text)
  ∧ tokens_of (u +:+ String c v) = (tokens_of u ++ tokens_of v)%list.
Proof.
  intros Hc. split.
  - intros l. apply maximal_runs_iff.
  - unfold tokens_of, Str.findall_alpha. rewrite str_lower_app. simpl.
    apply scan_app_sep. by rewrite lower_alpha.
Qed.

Lemma tokens_of_maximal_runs_witness :
  Char.is_alpha "1" = false
  ∧ maximal_runs Char.is_alpha (Str.lower "Abc1def") ["abc"; "def"]
  ∧ tokens_of ("Abc" +:+ String "1" "def") = ["abc"; "def"].
Proof.
  pose proof (tokens_of_maximal_runs "Abc1def" "Abc" "def" "1" eq_refl) as [H1 H2].
  split; [reflexivity|]. split.
  - apply H1. reflexivity.
  - rewrite H2. reflexivity.
Defined.

(** ** Word count *)

(** C8: the word count is the number of whitespace-delimited non-empty
    tokens of the text as it stands: the text has exactly one list of
    maximal runs of non-whitespace characters, and the word count is its
    length. The example text has five words. *)
Theorem word_count_spec (t : string) :
  (∃ tokens,
     maximal_runs (λ c, negb (Char.isspace c)) t tokens
     ∧ (∀ l, maximal_runs (λ c, negb (Char.isspace c)) t l ↔ l = tokens)
     ∧ word_count (analyze_ecfr_text t) = Z.of_nat (List.length tokens))
  ∧ word_count (analyze_ecfr_text "The OMB reviewed OMB policy.") = 5.
Proof.
  split; [|reflexivity].
  exists (Str.split t). split; [apply scan_sound|]. split; [|done].
  intros l. apply maximal_runs_iff.
Qed.

(** ** Counting non-overlapping occurrences *)

Section Count.

Variable sub : string.
Hypothesis sub_nonempty : sub ≠ "".

Local Abbreviation m := (String.length sub).
Local Abbreviation f := (Str.count_go sub 0).

Lemma drop_nil (k : nat) : Str.drop k "" = "".
Proof. by destruct k. Qed.

Lemma drop_drop (a b : nat) (s : string) :
  Str.drop a (Str.drop b s) = Str.drop (b + a) s.
Proof.
  revert s. induction b as [|b IH]; intros s; [done|].
  destruct s as [|c s]; simpl; [apply drop_nil|apply IH].
Qed.

Lemma drop_length (k : nat) (s : string) :
  (String.length (Str.drop k s) ≤ String.length s)%nat.
Proof.
  revert s. induction k as [|k IH]; intros [|c s]; simpl; try lia.
  specialize (IH s). lia.
Qed.

Lemma drop_app_length (s t : string) : Str.drop (String.length s) (s +:+ t) = t.
Proof. induction s as [|c s IH]; [done|]. by rewrite str_app_cons. Qed.

Lemma prefix_app (s t : string) : String.prefix s (s +:+ t) = true.
Proof.
  induction s as [|c s IH]; [by destruct t|].
  rewrite str_app_cons. simpl. by destruct (ascii_dec c c).
Qed.

Lemma prefix_split (s t : string) :
  String.prefix s t = true → t = s +:+ Str.drop (String.length s) t.
Proof.
  revert t. induction s as [|c s IH]; intros t; [done|].
  destruct t as [|d t]; simpl; [done|].
  destruct (ascii_dec c d) as [->|]; [|done].
  intros H. rewrite str_app_cons. f_equal. by apply IH.
Qed.

Lemma length_pos : (1 ≤ m)%nat.
Proof using sub_nonempty. destruct sub; [done|simpl; lia]. Qed.

(** Skipping [k] characters is dropping them. *)
Lemma count_go_skip (k : nat) (s : string) :
  Str.count_go sub k s = f (Str.drop k s).
Proof.
  revert k. induction s as [|c s IH]; intros [|k]; try done. simpl. apply IH.
Qed.

(** The search loop, one position at a time. *)
Lemma count_go_cons (c : ascii) (s : string) :
  f (String c s)
  = if String.prefix sub (String c s)
    then S (f (Str.drop (m - 1) s))
    else f s.
Proof.
  cbn [Str.count_go]. by rewrite count_go_skip.
Qed.

Lemma count_go_hit (s : string) : f (sub +:+ s) = S (f s).
Proof using sub_nonempty.
  destruct sub as [|a sub'] eqn:E; [done|].
  rewrite str_app_cons. rewrite <- E at 1 2.
  rewrite count_go_cons. rewrite E at 1. rewrite <- str_app_cons, <- E.
  rewrite prefix_app. do 2 f_equal.
  rewrite E. simpl. rewrite Nat.sub_0_r. apply drop_app_length.
Qed.

(** What the loop counts are non-overlapping occurrences. *)
Lemma count_go_sound (s : string) (k : nat) :
  occurrences sub (Str.drop k s) (Str.count_go sub k s).
Proof using sub_nonempty.
  revert k. induction s as [|c s IH]; intros k.
  - rewrite drop_nil. constructor.
  - destruct k as [|k]; [|apply IH].
    cbn [Str.count_go Str.drop].
    destruct (String.prefix sub (String c s)) eqn:Hp.
    + rewrite (prefix_split _ _ Hp). apply occ_hit.
      specialize (IH (m - 1)%nat).
      replace (Str.drop m (String c s)) with (Str.drop (m - 1) s); [done|].
      pose proof length_pos. by replace m with (S (m - 1)) at 2 by lia.
    + apply occ_skip, (IH 0%nat).
Qed.

(** Dropping up to [m] leading characters loses at most one occurrence
    and gains none. *)
Lemma count_go_drop (n : nat) (s : string) (k : nat) :
  (String.length s ≤ n)%nat → (k ≤ m)%nat →
  (f (Str.drop k s) ≤ f s ≤ S (f (Str.drop k s)))%nat.
Proof using sub_nonempty.
  revert s k. induction n as [|n IH]; intros s k Hn Hk.
  - destruct s; [|simpl in Hn; lia]. rewrite drop_nil. simpl. lia.
  - destruct k as [|k]; [simpl; lia|].
    destruct s as [|c s]; [simpl; lia|].
    simpl in Hn. cbn [Str.drop]. rewrite count_go_cons.
    destruct (String.prefix sub (String c s)).
    + pose proof (drop_length k s).
      replace (m - 1)%nat with (k + (m - 1 - k))%nat by lia.
      rewrite <- drop_drop.
      specialize (IH (Str.drop k s) (m - 1 - k)%nat). lia.
    + specialize (IH s k). lia.
Qed.

Lemma count_go_mono (c : ascii) (s : string) : (f s ≤ f (String c s))%nat.
Proof using sub_nonempty.
  pose proof length_pos.
  pose proof (count_go_drop _ (String c s) 1 (le_n _) length_pos) as H1.
  change (Str.drop 1 (String c s)) with s in H1. lia.
Qed.

(** No family of non-overlapping occurrences is larger than the count. *)
Lemma count_go_max (s : string) (n : nat) :
  occurrences sub s n → (n ≤ f s)%nat.
Proof using sub_nonempty.
  induction 1 as [s|c s n _ IH|s n _ IH].
  - lia.
  - pose proof (count_go_mono c s). lia.
  - rewrite count_go_hit. lia.
Qed.

End Count.

(** [s.count(sub)] is the largest number of non-overlapping occurrences of
    a non-empty [sub] in [s]. *)
Lemma count_spec (s sub : string) :
  sub ≠ "" →
  ∃ n : nat, Str.count s sub = Z.of_nat n
             ∧ occurrences sub s n
             ∧ ∀ k, occurrences sub s k → (k ≤ n)%nat.
Proof.
  intros Hne. exists (Str.count_go sub 0 s). split; [by destruct sub|]. split.
  - apply (count_go_sound sub Hne s 0).
  - intros k. by apply count_go_max.
Qed.

(** ** Dictionaries filled by a loop *)

(** The loop [for k in l: d[k] = g(k)] started from [d0]. *)
Lemma fill_lookup (g : string → Z) (l : list string) (d0 : gmap string Z) (k : string) :
  foldl (λ (d : gmap string Z) k, <[k := g k]> d) d0 l !! k
  = if decide (k ∈ l) then Some (g k) else d0 !! k.
Proof.
  revert d0. induction l as [|x l IH]; intros d0; cbn [foldl].
  - rewrite decide_False; [done|]. by intros ?%elem_of_nil.
  - rewrite IH. destruct (decide (k ∈ l)) as [Hin|Hin].
    + rewrite decide_True; [done|]. by right.
    + destruct (decide (k = x)) as [->|Hne].
      * rewrite lookup_insert_eq, decide_True; [done|]. by left.
      * rewrite lookup_insert_ne by done.
        rewrite decide_False; [done|]. by intros [?|?]%elem_of_cons.
Qed.

Lemma fill_dom (g : string → Z) (l : list string) (d0 : gmap string Z) :
  dom (foldl (λ (d : gmap string Z) k, <[k := g k]> d) d0 l)
  = list_to_set l ∪ dom d0.
Proof.
  apply set_eq. intros k.
  rewrite elem_of_dom, fill_lookup, elem_of_union, elem_of_list_to_set, elem_of_dom.
  destruct (decide (k ∈ l)); [|tauto]. split; [by left|eauto].
Qed.

Lemma fill_size (g : string → Z) (l : list string) :
  size (foldl (λ (d : gmap string Z) k, <[k := g k]> d) ∅ l)
  = List.length (remove_dups l).
Proof.
  rewrite <- size_dom, fill_dom, dom_empty_L, (right_id_L ∅ (∪)).
  rewrite <- (size_list_to_set (C := gset string) (remove_dups l))
    by apply NoDup_remove_dups.
  f_equal. apply set_eq. intros k.
  by rewrite !elem_of_list_to_set, elem_of_remove_dups.
Qed.

(** ** Agency mention counts *)

Lemma agencies_lookup (t c : string) :
  agencies (analyze_ecfr_text t) !! c
  = if decide (c ∈ agencies_to_check) then Some (Str.count t c) else None.
Proof.
  unfold analyze_ecfr_text. cbn [agencies].
  rewrite (fill_lookup (Str.count t)). by rewrite lookup_empty.
Qed.

(** C9: for each of the five agency codes the analyzer reports the number
    of non-overlapping occurrences of the code in the text as it stands:
    the text contains that many pairwise non-overlapping occurrences and
    no more. Occurrences are literal (case-sensitive) and may lie inside
    longer tokens. *)
Theorem agency_counts_spec (t c : string) :
  c ∈ agencies_to_check →
  (∃ n : nat,
     agencies (analyze_ecfr_text t) !! c = Some (Z.of_nat n)
     ∧ occurrences c t n
     ∧ ∀ k, occurrences c t k → (k ≤ n)%nat)
  ∧ agencies (analyze_ecfr_text "The OMB reviewed OMB policy.") !! "OMB" = Some 2
  ∧ agencies (analyze_ecfr_text "The OMB reviewed OMB policy.") !! "NCPC" = Some 0
  ∧ agencies (analyze_ecfr_text "the BLOMBERG omb Omb") !! "OMB" = Some 1.
Proof.
  intros Hc. split; [|by_computation].
  assert (Hne : c ≠ "").
  { intros ->. by repeat (apply elem_of_cons in Hc as [?|Hc]; [done|]); apply elem_of_nil in Hc. }
  destruct (count_spec t c Hne) as (n & Hn & Hocc & Hmax).
  exists n. rewrite agencies_lookup, decide_True by done. by rewrite Hn.
Qed.

Lemma agency_counts_spec_witness :
  "OMB" ∈ agencies_to_check
  ∧ ∃ n : nat,
      agencies (analyze_ecfr_text "OMB and OMBOMB") !! "OMB" = Some (Z.of_nat n)
      ∧ occurrences "OMB" "OMB and OMBOMB" n.
Proof.
  assert (H : "OMB" ∈ agencies_to_check) by (right; by left).
  split; [exact H|].
  destruct (agency_counts_spec "OMB and OMBOMB" "OMB" H) as [(n & Hn & Hocc & _) _].
  by exists n.
Defined.

(** ** Keyword search *)

Lemma keyword_frequencies_lookup (t : string) (kws : list string) (kw : string) :
  keyword_frequencies t kws !! kw
  = if decide (kw ∈ kws)
    then Some (Str.count (Str.lower t) (Str.lower kw))
    else None.
Proof.
  unfold keyword_frequencies.
  rewrite (fill_lookup (λ kw, Str.count (Str.lower t) (Str.lower kw))).
  by rewrite lookup_empty.
Qed.

Lemma str_lower_length (s : string) : String.length (Str.lower s) = String.length s.
Proof. induction s as [|c s IH]; [done|]. simpl. by rewrite IH. Qed.

Lemma str_lower_nonempty (s : string) : s ≠ "" → Str.lower s ≠ "".
Proof. by destruct s. Qed.

(** C5: the count reported for a keyword is the number of non-overlapping
    occurrences of the lowercased keyword in the lowercased text, so a
    case variant of the keyword gets the same count on the same text. *)
Theorem keyword_search_case_insensitive (t w w' : string) :
  case_variant w w' →
  (∃ n : nat,
     keyword_frequencies t [w] !! w = Some (Z.of_nat n)
     ∧ keyword_frequencies t [w'] !! w' = Some (Z.of_nat n)
     ∧ (w = "" ∧ n = S (String.length t)
        ∨ occurrences (Str.lower w) (Str.lower t) n
          ∧ ∀ k, occurrences (Str.lower w) (Str.lower t) k → (k ≤ n)%nat))
  ∧ keyword_frequencies "Privacy and privacy again" ["privacy"]
    = {[ "privacy" := 2 ]}.
Proof.
  intros Hv. split; [|by_computation].
  unfold case_variant in Hv.
  rewrite !keyword_frequencies_lookup, !decide_True by (by left).
  rewrite <- Hv. destruct (decide (w = "")) as [->|Hne].
  - exists (S (String.length t)). simpl. rewrite str_lower_length.
    split; [f_equal; lia|]. split; [f_equal; lia|]. by left.
  - destruct (count_spec (Str.lower t) (Str.lower w) (str_lower_nonempty w Hne))
      as (n & Hn & Hocc & Hmax).
    exists n. rewrite Hn. split; [done|]. split; [done|]. by right.
Qed.

Lemma keyword_search_case_insensitive_witness :
  case_variant "Privacy" "PRIVACY"
  ∧ keyword_frequencies "Privacy and privacy again" ["Privacy"] !! "Privacy"
    = keyword_frequencies "Privacy and privacy again" ["PRIVACY"] !! "PRIVACY".
Proof.
  assert (H : case_variant "Privacy" "PRIVACY") by reflexivity.
  split; [exact H|].
  destruct (keyword_search_case_insensitive "Privacy and privacy again" _ _ H)
    as [(n & -> & -> & _) _].
  reflexivity.
Defined.

(** C2, refuted as stated: a keyword given twice is in the keyword list
    twice but has a single entry in the result mapping. *)
Lemma duplicate_keywords_one_entry :
  keywords_of "privacy, privacy" = ["privacy"; "privacy"]
  ∧ keyword_frequencies "Privacy and privacy again" (keywords_of "privacy, privacy")
    = {[ "privacy" := 2 ]}
  ∧ size (keyword_frequencies "Privacy and privacy again"
                              (keywords_of "privacy, privacy"))
    ≠ List.length (keywords_of "privacy, privacy").
Proof. by_computation. Qed.

(** C2, amended: the result mapping has one entry per distinct keyword
    (keywords compared as literal strings), so a repeated keyword has one
    entry; two keywords of the list that are case variants of each other
    are both keys of the mapping, each with the count of their common
    lowercase form. *)
Theorem keyword_frequencies_entries (t : string) (kws : list string) (kw kw' : string) :
  kw ∈ kws → kw' ∈ kws → case_variant kw kw' →
  dom (keyword_frequencies t kws) = list_to_set kws
  ∧ size (keyword_frequencies t kws) = List.length (remove_dups kws)
  ∧ keyword_frequencies t kws !! kw = Some (Str.count (Str.lower t) (Str.lower kw))
  ∧ keyword_frequencies t kws !! kw' = Some (Str.count (Str.lower t) (Str.lower kw)).
Proof.
  intros Hkw Hkw' Hv. unfold case_variant in Hv. split; [|split].
  - unfold keyword_frequencies.
    rewrite (fill_dom (λ kw, Str.count (Str.lower t) (Str.lower kw))).
    by rewrite dom_empty_L, (right_id_L ∅ (∪)).
  - apply (fill_size (λ kw, Str.count (Str.lower t) (Str.lower kw))).
  - rewrite !keyword_frequencies_lookup, !decide_True by done. by rewrite Hv.
Qed.

Lemma keyword_frequencies_entries_witness :
  "ABC" ∈ ["ABC"; "abc"; "abc"] ∧ "abc" ∈ ["ABC"; "abc"; "abc"]
  ∧ case_variant "ABC" "abc"
  ∧ size (keyword_frequencies "abc Abc" ["ABC"; "abc"; "abc"]) = 2%nat
  ∧ keyword_frequencies "abc Abc" ["ABC"; "abc"; "abc"] !! "ABC" = Some 2
  ∧ keyword_frequencies "abc Abc" ["ABC"; "abc"; "abc"] !! "abc" = Some 2.
Proof.
  assert (H1 : "ABC" ∈ ["ABC"; "abc"; "abc"]) by (by left).
  assert (H2 : "abc" ∈ ["ABC"; "abc"; "abc"]) by (right; by left).
  assert (H3 : case_variant "ABC" "abc") by reflexivity.
  destruct (keyword_frequencies_entries "abc Abc" _ _ _ H1 H2 H3)
    as (_ & Hs & Ha & Hb).
  split; [exact H1|]. split; [exact H2|]. split; [exact H3|].
  split; [|split].
  - rewrite Hs. reflexivity.
  - rewrite Ha. reflexivity.
  - rewrite Hb. reflexivity.
Defined.

(** ** Comparing two snapshots *)

Lemma agencies_diff_lookup (a b : snapshot) (k : string) :
  agencies_diff (compare_two_snapshots a b) !! k
  = if decide (k ∈ dom (agencies (snap_analysis a)) ∪ dom (agencies (snap_analysis b)))
    then Some (get0 (agencies (snap_analysis b)) k - get0 (agencies (snap_analysis a)) k)
    else None.
Proof.
  unfold compare_two_snapshots. cbn [agencies_diff]. revert k.
  generalize (dom (agencies (snap_analysis a)) ∪ dom (agencies (snap_analysis b))).
  apply (set_fold_ind_L
           (λ (r : gmap string Z) (X : gset string), ∀ k,
              r !! k = if decide (k ∈ X)
                       then Some (get0 (agencies (snap_analysis b)) k
                                  - get0 (agencies (snap_analysis a)) k)
                       else None)).
  - intros k. by rewrite lookup_empty, decide_False by apply not_elem_of_empty.
  - intros x Y r Hx IH k. cbn zeta.
    destruct (decide (k = x)) as [->|Hne].
    + by rewrite lookup_insert_eq, decide_True
        by (by apply elem_of_union_l, elem_of_singleton).
    + rewrite lookup_insert_ne, IH by done.
      destruct (decide (k ∈ Y)).
      * by rewrite decide_True by (by apply elem_of_union_r).
      * by rewrite decide_False by (rewrite elem_of_union, elem_of_singleton; tauto).
Qed.

Lemma agencies_diff_dom (a b : snapshot) :
  dom (agencies_diff (compare_two_snapshots a b))
  = dom (agencies (snap_analysis a)) ∪ dom (agencies (snap_analysis b)).
Proof.
  apply set_eq. intros k. rewrite elem_of_dom, agencies_diff_lookup.
  case_decide; [|split; [by intros [? ?]|done]]. split; [done|eauto].
Qed.

(** C4: [compare(a, b)] is the field-by-field negation of [compare(b, a)]:
    the word-count changes are opposite, the two agency mappings have the
    same keys (the union of both snapshots' agency keys) and opposite
    values; [compare(a, a)] has a zero word-count change and maps every
    agency of [a] to zero. *)
Theorem compare_antisymmetric (a b : snapshot) :
  word_count_change (compare_two_snapshots a b)
  = - word_count_change (compare_two_snapshots b a)
  ∧ dom (agencies_diff (compare_two_snapshots a b))
    = dom (agencies_diff (compare_two_snapshots b a))
  ∧ agencies_diff (compare_two_snapshots a b)
    = Z.opp <$> agencies_diff (compare_two_snapshots b a)
  ∧ word_count_change (compare_two_snapshots a a) = 0
  ∧ agencies_diff (compare_two_snapshots a a)
    = (λ _, 0) <$> agencies (snap_analysis a)
  ∧ compare_two_snapshots snapshot_A snapshot_B
    = Comparison 20 {[ "OMB" := 3 ]}.
Proof.
  split; [simpl; lia|]. split.
  { rewrite !agencies_diff_dom. apply (comm_L (∪)). }
  split.
  { apply map_eq. intros k.
    rewrite lookup_fmap, !agencies_diff_lookup.
    rewrite (comm_L (∪) (dom (agencies (snap_analysis b)))).
    destruct (decide (k ∈ _)) as [Hk|Hk]; [|done].
    simpl. f_equal. lia. }
  split; [simpl; lia|]. split; [|by_computation].
  apply map_eq. intros k. rewrite lookup_fmap, agencies_diff_lookup.
  destruct (agencies (snap_analysis a) !! k) as [v|] eqn:Hk.
  - rewrite decide_True by (apply elem_of_union_l, elem_of_dom; eauto).
    simpl. f_equal. lia.
  - rewrite decide_False; [done|].
    rewrite (idemp_L (∪)). by rewrite not_elem_of_dom.
Qed.

(** ** The latest snapshot date *)




(** ** The last-result slot *)

(** C6: a run of [analyze] that fails in the fetch or in the extraction
    answers with an error and leaves the slot as it was; the other runs
    answer with a complete snapshot (the analysis of the whole extracted
    text) and store that same snapshot. The same holds of
    [latest_analyze]. *)
Theorem analyze_store
    (get_text : string → result string)
    (get_json : string → result (list version))
    (fromstring : string → result element)
    (date title : option string) (analysis_result : store) :
  match analyze get_text fromstring date title analysis_result with
  | (RespError _, slot) =>
      slot = analysis_result
      ∧ ∀ xml_data root,
          fetch_ecfr_xml get_text (default "2025-01-01" date) (default "1" title)
          = Ok xml_data → fromstring xml_data ≠ Ok root
  | (RespAnalysis r, slot) =>
      slot = Some r
      ∧ ∃ xml_data root,
          fetch_ecfr_xml get_text (default "2025-01-01" date) (default "1" title)
          = Ok xml_data
          ∧ fromstring xml_data = Ok root
          ∧ r = Snapshot (default "2025-01-01" date) (default "1" title)
                         (analyze_ecfr_text (parse_ecfr_tree root))
  | _ => False
  end
  ∧ match latest_analyze get_text get_json fromstring title analysis_result with
    | (RespError _, slot) => slot = analysis_result
    | (RespAnalysis r, slot) =>
        slot = Some r
        ∧ ∃ root, snap_analysis r = analyze_ecfr_text (parse_ecfr_tree root)
    | _ => False
    end.
Proof.
  split.
  - unfold analyze, parse_and_analyze_ecfr_xml, parse_ecfr_xml.
    destruct (fetch_ecfr_xml _ _ _) as [xml_data|e]; simpl.
    + destruct (fromstring xml_data) as [root|e] eqn:Hroot; simpl.
      * split; [done|]. by exists xml_data, root.
      * split; [done|]. intros ? ? [= <-]. by rewrite Hroot.
    + split; [done|]. by intros.
  - unfold latest_analyze, parse_and_analyze_ecfr_xml, parse_ecfr_xml.
    destruct (fetch_latest_snapshot_date _ _) as [latest_date|e]; simpl; [|done].
    destruct (fetch_ecfr_xml _ _ _) as [xml_data|e]; simpl; [|done].
    destruct (fromstring xml_data) as [root|e]; simpl; [|done].
    split; [done|]. by exists root.
Qed.

(** ** Text extraction *)

(** Induction on trees: the property holds of a node when it holds of
    all its children. *)
Lemma element_forall_ind (P : element → Prop) :
  (∀ tag text ch tail, Forall P ch → P (Element tag text ch tail)) →
  ∀ e, P e.
Proof.
  intros step. fix IH 1. intros [tag text ch tail]. apply step.
  induction ch as [|e ch IHch]; constructor; [apply IH|apply IHch].
Qed.

(** Rewriting the tails changes no node's position in document order. *)
Lemma iter_map_tails (f : option string → option string) (e : element) :
  iter (map_tails f e) = map (map_tails f) (iter e).
Proof.
  induction e as [tag text ch tail IH] using element_forall_ind.
  cbn [iter map_tails map]. f_equal.
  induction IH as [|x l Hx _ IHl]; [done|].
  cbn [map flat_map]. by rewrite Hx, IHl, map_app.
Qed.

Lemma elem_text_map_tails (f : option string → option string) (e : element) :
  elem_text (map_tails f e) = elem_text e.
Proof. by destruct e. Qed.

(** The loop of [parse_ecfr_xml] appends the stripped non-empty leading
    texts to what it has collected. *)
Lemma fragments_loop (acc : list string) (l : list element) :
  foldl append_fragment acc l
  = (acc ++ omap (λ e, match elem_text e with
                       | Some (String _ _ as t) => Some (Str.strip t)
                       | _ => None
                       end) l)%list.
Proof.
  revert acc. induction l as [|e l IH]; intros acc; simpl.
  - by rewrite (right_id_L [] (++)%list).
  - rewrite IH. unfold append_fragment.
    destruct (elem_text e) as [[|c t]|]; [done| |done].
    by rewrite <- (assoc_L (++)%list).
Qed.

Lemma parse_ecfr_tree_leading_texts (root : element) :
  parse_ecfr_tree root = Str.join " " (leading_texts root).
Proof. unfold parse_ecfr_tree. by rewrite fragments_loop. Qed.

Lemma omap_map_same {A B : Type} (g : A → option B) (h : A → A) (l : list A) :
  (∀ x, g (h x) = g x) → omap g (map h l) = omap g l.
Proof.
  intros Hgh. induction l as [|x l IH]; [done|]. cbn. by rewrite Hgh, IH.
Qed.

Lemma leading_texts_map_tails (f : option string → option string) (root : element) :
  leading_texts (map_tails f root) = leading_texts root.
Proof.
  unfold leading_texts. rewrite iter_map_tails.
  apply omap_map_same. intros e. by rewrite elem_text_map_tails.
Qed.

(** C10: the extracted text is the space-joined list of the stripped,
    non-empty leading texts of the nodes in document order; the tails play
    no part: rewriting every tail of the tree in any way (erasing it,
    say) leaves the extracted text unchanged, and in the example the
    character data behind the end of b is absent from the result. *)
Theorem extraction_omits_tails (f : option string → option string) (root : element) :
  parse_ecfr_tree root = Str.join " " (leading_texts root)
  ∧ parse_ecfr_tree (map_tails f root) = parse_ecfr_tree root
  ∧ parse_ecfr_tree
      (Element "a" (Some "Hello")
         [Element "b" (Some "  World  ") [] (Some " after b ")] None)
    = "Hello World".
Proof.
  split; [apply parse_ecfr_tree_leading_texts|]. split; [|reflexivity].
  by rewrite !parse_ecfr_tree_leading_texts, leading_texts_map_tails.
Qed.

(** ** Lists in order *)

Section Ordered.

Context {A : Type}.
Implicit Types (R : A → A → Prop) (l : list A).

Lemma ordered_nil R : ordered R [].
Proof. intros i j x y Hi. by rewrite lookup_nil in Hi. Qed.

Lemma ordered_cons R a l :
  ordered R (a :: l) ↔ Forall (R a) l ∧ ordered R l.
Proof.
  split.
  - intros H. split.
    + apply Forall_lookup. intros i x Hi.
      apply (H 0%nat (S i) a x); [done|done|lia].
    + intros i j x y Hi Hj Hij. apply (H (S i) (S j)); [done|done|lia].
  - intros [Ha Hl] i j x y Hi Hj Hij.
    destruct j as [|j]; [lia|]. simpl in Hj.
    destruct i as [|i]; simpl in Hi.
    + injection Hi as <-. by apply (Forall_lookup_1 _ _ _ _ Ha Hj).
    + apply (Hl i j); [done|done|lia].
Qed.

Lemma ordered_snoc R l a :
  ordered R l → Forall (λ x, R x a) l → ordered R (l ++ [a]).
Proof.
  induction l as [|b l IH]; intros Hl Ha.
  - apply ordered_cons. split; [constructor|apply ordered_nil].
  - apply ordered_cons in Hl as [Hb Hl]. apply Forall_cons in Ha as [Hba Ha].
    simpl. apply ordered_cons. split; [|by apply IH].
    apply Forall_app. split; [done|]. by constructor.
Qed.

Lemma ordered_take R n l : ordered R l → ordered R (take n l).
Proof.
  intros H i j x y Hi Hj Hij.
  apply lookup_take_Some in Hi as [Hi _]. apply lookup_take_Some in Hj as [Hj _].
  by apply (H i j).
Qed.

(** Only the elements of the list matter. *)
Lemma ordered_impl R R' l :
  (∀ x y, x ∈ l → y ∈ l → R x y → R' x y) → ordered R l → ordered R' l.
Proof.
  intros Himpl H i j x y Hi Hj Hij.
  apply Himpl; [by eapply list_elem_of_lookup_2..|by apply (H i j)].
Qed.

Lemma ordered_fmap {B : Type} (g : B → A) R (l : list B) :
  ordered R (g <$> l) ↔ ordered (λ x y, R (g x) (g y)) l.
Proof.
  split.
  - intros H i j x y Hi Hj Hij.
    apply (H i j); [by rewrite list_lookup_fmap, ?Hi, ?Hj..|done].
  - intros H i j x y Hi Hj Hij.
    apply list_lookup_fmap_Some in Hi as (x' & -> & Hi).
    apply list_lookup_fmap_Some in Hj as (y' & -> & Hj).
    by apply (H i j).
Qed.

End Ordered.

(** ** First occurrences *)

Lemma first_index_le (w : string) (l : list string) :
  (first_index w l ≤ List.length l)%nat.
Proof. induction l as [|x l IH]; simpl; [lia|]. case_decide; lia. Qed.

Lemma first_index_elem (w : string) (l : list string) :
  w ∈ l ↔ (first_index w l < List.length l)%nat.
Proof.
  induction l as [|x l IH]; simpl.
  - split; [by intros ?%elem_of_nil|lia].
  - rewrite elem_of_cons. case_decide as Hx; [subst; split; [lia|by left]|].
    rewrite IH. split; [intros [?|?]; [congruence|lia]|intros ?; right; lia].
Qed.

Lemma first_index_lookup (w : string) (l : list string) :
  w ∈ l → l !! first_index w l = Some w.
Proof.
  induction l as [|x l IH]; [by intros ?%elem_of_nil|].
  intros Hw. simpl. case_decide as Hx; [by subst|].
  apply elem_of_cons in Hw as [->|Hw]; [done|]. by apply IH.
Qed.

Lemma first_index_app_l (w : string) (l l' : list string) :
  w ∈ l → first_index w (l ++ l') = first_index w l.
Proof.
  induction l as [|x l IH]; [by intros ?%elem_of_nil|].
  intros Hw. simpl. case_decide as Hx; [done|].
  apply elem_of_cons in Hw as [->|Hw]; [done|]. by rewrite IH.
Qed.

Lemma first_index_app_r (w : string) (l l' : list string) :
  w ∉ l → first_index w (l ++ l') = (List.length l + first_index w l')%nat.
Proof.
  induction l as [|x l IH]; [done|].
  intros Hw. apply not_elem_of_cons in Hw as [Hx Hw].
  simpl. rewrite decide_False by done. by rewrite IH.
Qed.

(** Filtering a stream keeps the order of first occurrences of the tokens
    that pass the filter. *)
Lemma first_index_filter (keep : string → bool) (w1 w2 : string) (l : list string) :
  keep w1 = true → keep w2 = true →
  (first_index w1 (List.filter keep l) < first_index w2 (List.filter keep l))%nat →
  (first_index w1 l < first_index w2 l)%nat.
Proof.
  intros H1 H2. induction l as [|x l IH]; simpl; [lia|].
  destruct (keep x) eqn:Hx; simpl.
  - repeat case_decide; lia.
  - rewrite !decide_False by congruence. lia.
Qed.

(** ** The counter *)

Lemma occ_count_snoc (w k : string) (l : list string) :
  occ_count w (l ++ [k]) = occ_count w l + (if decide (k = w) then 1 else 0).
Proof.
  unfold occ_count. rewrite List.filter_app, List.length_app. simpl.
  rewrite Nat2Z.inj_add. f_equal.
  case_decide; [by rewrite bool_decide_eq_true_2|by rewrite bool_decide_eq_false_2].
Qed.

Lemma occ_count_absent (w : string) (l : list string) : w ∉ l → occ_count w l = 0.
Proof.
  unfold occ_count. induction l as [|x l IH]; [done|].
  intros [Hx Hl]%not_elem_of_cons. simpl.
  rewrite bool_decide_eq_false_2 by done. by apply IH.
Qed.

Lemma counter_incr_keys (k : string) (c : counter) :
  (counter_incr k c).*1 = if decide (k ∈ c.*1) then c.*1 else (c.*1 ++ [k])%list.
Proof.
  induction c as [|[k' v] c IH]; [done|]. cbn [counter_incr].
  destruct (decide (k = k')) as [->|Hne]; rewrite !fmap_cons; cbn [fst].
  - rewrite decide_True; [done|]. by left.
  - rewrite IH. destruct (decide (k ∈ c.*1)) as [Hin|Hin].
    + rewrite decide_True; [done|]. by right.
    + rewrite decide_False; [done|]. by intros [?|?]%elem_of_cons.
Qed.

(** Incrementing [k] keeps every count equal to the frequency so far. *)
Lemma counter_incr_counts (k : string) (l : list string) (c : counter) :
  NoDup c.*1 →
  (k ∉ c.*1 → k ∉ l) →
  Forall (λ e, e.2 = occ_count e.1 l) c →
  Forall (λ e, e.2 = occ_count e.1 (l ++ [k])) (counter_incr k c).
Proof.
  induction c as [|[k' v] c IH]; intros Hnd Hk Hc.
  - constructor; [|done]. simpl. rewrite occ_count_snoc, decide_True by done.
    rewrite occ_count_absent; [done|]. apply Hk. by intros ?%elem_of_nil.
  - apply Forall_cons in Hc as [Hv Hc]. simpl in Hv, Hnd.
    apply NoDup_cons in Hnd as [Hk' Hnd]. simpl.
    destruct (decide (k = k')) as [->|Hne].
    + constructor.
      * simpl. rewrite occ_count_snoc, decide_True by done. lia.
      * apply Forall_forall. intros [w u] Hw.
        rewrite Forall_forall in Hc. specialize (Hc _ Hw). simpl in *.
        rewrite occ_count_snoc, decide_False; [lia|].
        intros ->. apply Hk'. apply list_elem_of_fmap. by exists (w, u).
    + constructor.
      * simpl. rewrite occ_count_snoc, decide_False by done. lia.
      * apply IH; [done| |done]. intros Hin. apply Hk.
        by intros [?|?]%elem_of_cons.
Qed.

Lemma Counter_snoc (l : list string) (k : string) :
  Counter (l ++ [k]) = counter_incr k (Counter l).
Proof. unfold Counter. by rewrite foldl_app. Qed.

(** The counter of a stream: its keys are the distinct tokens in the order
    of their first occurrence, each with its frequency. *)
Lemma Counter_spec (l : list string) :
  NoDup (Counter l).*1
  ∧ (∀ w, w ∈ (Counter l).*1 ↔ w ∈ l)
  ∧ ordered (λ x y, (first_index x l < first_index y l)%nat) (Counter l).*1
  ∧ Forall (λ e, e.2 = occ_count e.1 l) (Counter l).
Proof.
  induction l as [|k l (Hnd & Hin & Hord & Hcnt)] using rev_ind.
  - split; [constructor|]. split; [done|]. split; [apply ordered_nil|constructor].
  - rewrite Counter_snoc. split; [|split; [|split]].
    + rewrite counter_incr_keys. case_decide as Hk; [done|].
      apply NoDup_app. split; [done|]. split; [|apply NoDup_singleton].
      intros w Hw ?%list_elem_of_singleton. by subst.
    + intros w. rewrite counter_incr_keys, elem_of_app, list_elem_of_singleton.
      case_decide as Hk.
      * rewrite Hin. split; [by left|]. intros [?| ->]; [done|]. by apply Hin.
      * by rewrite elem_of_app, list_elem_of_singleton, Hin.
    + rewrite counter_incr_keys. case_decide as Hk.
      * eapply ordered_impl; [|exact Hord]. intros x y Hx Hy.
        by rewrite !first_index_app_l by by apply Hin.
      * apply ordered_snoc.
        -- eapply ordered_impl; [|exact Hord]. intros x y Hx Hy.
           by rewrite !first_index_app_l by by apply Hin.
        -- apply Forall_forall. intros x Hx.
           rewrite first_index_app_l by by apply Hin.
           rewrite first_index_app_r by by rewrite <- Hin.
           apply Hin, first_index_elem in Hx. lia.
    + apply counter_incr_counts; [done| |done]. by rewrite Hin.
Qed.

(** ** The stable sort *)

Lemma elem_of_insert_desc (x y : string * Z) (l : list (string * Z)) :
  y ∈ insert_desc x l ↔ y = x ∨ y ∈ l.
Proof.
  induction l as [|z l IH]; simpl.
  - rewrite list_elem_of_singleton, elem_of_nil. tauto.
  - destruct (x.2 <? z.2); rewrite !elem_of_cons, ?IH; tauto.
Qed.

Lemma elem_of_sorted_desc (y : string * Z) (l : list (string * Z)) :
  y ∈ sorted_desc l ↔ y ∈ l.
Proof.
  induction l as [|x l IH]; [done|]. simpl.
  by rewrite elem_of_insert_desc, elem_of_cons, IH.
Qed.

Section Stable.

Variable stream : list string.

Local Abbreviation first_seen_before :=
  (λ x y : string * Z, (first_index x.1 stream < first_index y.1 stream)%nat).

(** Inserting an element that was seen before all elements of the list. *)
Lemma insert_desc_ordered (a : string * Z) (l : list (string * Z)) :
  Forall (first_seen_before a) l →
  ordered (ranks_before stream) l →
  ordered (ranks_before stream) (insert_desc a l).
Proof.
  induction l as [|y l IH]; intros Ha Hl; simpl.
  - apply ordered_cons. split; [constructor|apply ordered_nil].
  - apply Forall_cons in Ha as [Hay Ha].
    pose proof Hl as [Hy Hl']%ordered_cons.
    destruct (Z.ltb_spec a.2 y.2) as [Hlt|Hge].
    + apply ordered_cons. split; [|by apply IH].
      apply Forall_forall. intros z [->|Hz]%elem_of_insert_desc.
      * by left.
      * by apply (proj1 (Forall_forall _ _) Hy).
    + apply ordered_cons. split; [|done].
      apply Forall_cons. split.
      * unfold ranks_before. destruct (decide (y.2 = a.2)); [right|left; lia].
        by split.
      * apply Forall_forall. intros z Hz.
        pose proof (proj1 (Forall_forall _ _) Hy z Hz) as Hyz.
        pose proof (proj1 (Forall_forall _ _) Ha z Hz) as Haz.
        unfold ranks_before in *. simpl in *.
        destruct (decide (z.2 = a.2)); [right; by split|left; lia].
Qed.

(** Sorting a list whose elements stand in the order in which they were
    first seen: larger counts come first, and equal counts stay in that
    order. *)
Lemma sorted_desc_ordered (l : list (string * Z)) :
  ordered first_seen_before l → ordered (ranks_before stream) (sorted_desc l).
Proof.
  induction l as [|a l IH]; intros Hl; simpl; [apply ordered_nil|].
  apply ordered_cons in Hl as [Ha Hl].
  apply insert_desc_ordered; [|by apply IH].
  apply Forall_forall. intros z Hz.
  apply (proj1 (elem_of_sorted_desc z l)) in Hz.
  rewrite Forall_forall in Ha. by apply Ha.
Qed.

End Stable.

(** ** Top words *)

Lemma forallb_both (p q r : ascii → bool) (s : string) :
  (∀ c, p c = true → q c = true → r c = true) →
  Str.forallb p s = true → Str.forallb q s = true → Str.forallb r s = true.
Proof.
  intros Hr. induction s as [|c s IH]; [done|]. simpl.
  intros [Hp Hps]%andb_true_iff [Hq Hqs]%andb_true_iff.
  rewrite (Hr c Hp Hq). simpl. auto.
Qed.

(** The tokens are words of lower-case ASCII letters. *)
Lemma tokens_of_lowercase (text w : string) :
  w ∈ tokens_of text → Str.forallb Char.is_lower_ascii w = true.
Proof.
  intros Hw.
  pose proof (proj1 (scan_sound Char.is_alpha (Str.lower text))) as Hruns.
  fold (Str.findall_alpha (Str.lower text)) in Hruns. fold (tokens_of text) in Hruns.
  pose proof (maximal_runs_kept _ _ _ Hruns) as Hkept.
  pose proof (maximal_runs_chars _ _ _ _ Hruns (str_lower_no_upper text)) as Hlow.
  rewrite Forall_forall in Hkept, Hlow.
  destruct (Hkept w Hw) as [_ Halpha]. specialize (Hlow w Hw).
  refine (forallb_both _ _ _ w _ Halpha Hlow).
  intros c Hc Hu. apply alpha_not_upper; [done|]. by destruct (Char.is_upper_ascii c).
Qed.

Lemma filtered_of_elem (text w : string) :
  w ∈ filtered_of text ↔ w ∈ tokens_of text ∧ keep_token w = true.
Proof. unfold filtered_of. by rewrite !list_elem_of_In, filter_In. Qed.

Lemma keep_token_spec (w : string) :
  keep_token w = true ↔ (w ∉ stopwords) ∧ (1 < String.length w)%nat.
Proof.
  unfold keep_token. by rewrite andb_true_iff, !bool_decide_eq_true.
Qed.

Lemma get_top_words_elem (text : string) (n : Z) (e : string * Z) :
  e ∈ get_top_words text n → e ∈ Counter (filtered_of text).
Proof.
  unfold get_top_words, most_common. intros He.
  apply elem_of_sorted_desc. revert He. apply subseteq_take.
Qed.

Lemma get_top_words_key (text : string) (n : Z) (e : string * Z) :
  e ∈ get_top_words text n → e.1 ∈ filtered_of text.
Proof.
  intros He%get_top_words_elem.
  apply (proj1 (proj2 (Counter_spec (filtered_of text)))).
  apply list_elem_of_fmap. by exists e.
Qed.

(** C3: the top-words list has at most [n] entries (ten in the analyzer);
    every entry is a token of lower-case ASCII letters, longer than one
    character and outside the stopword set, with its frequency among the
    retained tokens; of two entries the earlier one has the larger count
    or, when the counts are equal, the token that occurs first in the
    token stream. *)
Theorem top_words_spec (text : string) (n : Z) :
  (List.length (get_top_words text n) ≤ Z.to_nat n)%nat
  ∧ (List.length (top_words (analyze_ecfr_text text)) ≤ 10)%nat
  ∧ Forall (λ e, Str.forallb Char.is_lower_ascii e.1 = true
                 ∧ (1 < String.length e.1)%nat
                 ∧ (e.1 ∉ stopwords)
                 ∧ e.1 ∈ tokens_of text
                 ∧ e.2 = occ_count e.1 (filtered_of text))
           (get_top_words text n)
  ∧ ordered (λ x y, y.2 ≤ x.2) (get_top_words text n)
  ∧ ordered (ranks_before (tokens_of text)) (get_top_words text n).
Proof.
  assert (Hlen : ∀ k, (List.length (get_top_words text k) ≤ Z.to_nat k)%nat).
  { intros k. unfold get_top_words, most_common. rewrite length_take. lia. }
  assert (Hord : ordered (ranks_before (tokens_of text)) (get_top_words text n)).
  { destruct (Counter_spec (filtered_of text)) as (_ & _ & Hkeys & _).
    pose proof (proj1 (ordered_fmap _ _ _) Hkeys) as Hseen.
    pose proof (sorted_desc_ordered (filtered_of text) _ Hseen) as Hsorted.
    pose proof (ordered_take _ (Z.to_nat n) _ Hsorted) as Htop.
    eapply ordered_impl; [|exact Htop].
    intros x y Hx%get_top_words_key Hy%get_top_words_key [Hlt|[Heq Hidx]].
    - by left.
    - right. split; [done|].
      apply filtered_of_elem in Hx as [_ Hx]. apply filtered_of_elem in Hy as [_ Hy].
      by apply (first_index_filter keep_token). }
  split; [apply Hlen|]. split; [apply (Hlen 10)|]. split; [|split; [|done]].
  - apply Forall_forall. intros e He.
    pose proof (get_top_words_key _ _ _ He) as [Htok Hkeep]%filtered_of_elem.
    apply keep_token_spec in Hkeep as [Hstop Hlong].
    split; [by eapply tokens_of_lowercase|]. do 3 (split; [done|]).
    destruct (Counter_spec (filtered_of text)) as (_ & _ & _ & Hcnt).
    rewrite Forall_forall in Hcnt. by apply Hcnt, get_top_words_elem with n.
  - eapply ordered_impl; [|exact Hord].
    intros x y _ _ [Hlt|[Heq _]]; lia.
Qed.

(** ** Stripping *)

Lemma lstrip_starts (s : string) : Str.starts Char.isspace (Str.lstrip s) = false.
Proof.
  induction s as [|c s IH]; [done|]. simpl.
  destruct (Char.isspace c) eqn:Hc; [done|]. simpl. by rewrite Hc.
Qed.

Lemma lstrip_id (s : string) : Str.starts Char.isspace s = false → Str.lstrip s = s.
Proof. destruct s as [|c s]; [done|]. simpl. by intros ->. Qed.

Lemma rstrip_starts (s : string) :
  Str.starts Char.isspace s = false → Str.starts Char.isspace (Str.rstrip s) = false.
Proof.
  destruct s as [|c s]; [done|]. simpl. intros Hc.
  destruct (Str.rstrip s); [by rewrite Hc|done].
Qed.

Lemma rstrip_idem (s : string) : Str.rstrip (Str.rstrip s) = Str.rstrip s.
Proof.
  induction s as [|c s IH]; [done|]. simpl.
  destruct (Str.rstrip s) as [|d r] eqn:Hr.
  - destruct (Char.isspace c) eqn:Hc; [done|]. simpl. by rewrite Hc.
  - change (Str.rstrip (String c (String d r))) with
      (match Str.rstrip (String d r) with
       | "" => if Char.isspace c then "" else String c ""
       | r' => String c r'
       end).
    by rewrite IH.
Qed.

Lemma strip_stripped (s : string) : stripped (Str.strip s).
Proof.
  unfold stripped, Str.strip. split; [|apply rstrip_idem].
  apply lstrip_id, rstrip_starts, lstrip_starts.
Qed.

Lemma lstrip_forallb (q : ascii → bool) (s : string) :
  Str.forallb q s = true → Str.forallb q (Str.lstrip s) = true.
Proof.
  induction s as [|c s IH]; [done|]. simpl.
  intros [Hc Hs]%andb_true_iff. destruct (Char.isspace c); [auto|].
  simpl. by rewrite Hc, Hs.
Qed.

Lemma rstrip_forallb (q : ascii → bool) (s : string) :
  Str.forallb q s = true → Str.forallb q (Str.rstrip s) = true.
Proof.
  induction s as [|c s IH]; [done|]. simpl.
  intros [Hc Hs]%andb_true_iff. specialize (IH Hs).
  destruct (Str.rstrip s) as [|d r].
  - destruct (Char.isspace c); [done|]. simpl. by rewrite Hc.
  - simpl in *. by rewrite Hc, IH.
Qed.

Lemma strip_forallb (q : ascii → bool) (s : string) :
  Str.forallb q s = true → Str.forallb q (Str.strip s) = true.
Proof. intros H. by apply rstrip_forallb, lstrip_forallb. Qed.

(** The fields cut out by [split(sep)] do not contain [sep]. *)
Lemma split_on_fields (sep : ascii) (s : string) :
  Forall (λ k, Str.forallb (λ c, bool_decide (c ≠ sep)) k = true) (Str.split_on sep s).
Proof.
  induction s as [|c s IH]; simpl; [by repeat constructor|].
  destruct (decide (c = sep)) as [->|Hne]; [by constructor|].
  destruct (Str.split_on sep s) as [|w l]; simpl.
  - repeat constructor. simpl. by rewrite bool_decide_eq_true_2.
  - apply Forall_cons in IH as [Hw Hl]. constructor; [|done].
    simpl. by rewrite bool_decide_eq_true_2, Hw.
Qed.

(** X1: every keyword that the search reads from its parameter is not
    empty, has no whitespace at either end and contains no comma. *)
Theorem keywords_of_clean (keywords_param : string) :
  Forall (λ kw, kw ≠ "" ∧ stripped kw
                ∧ Str.forallb (λ c, bool_decide (c ≠ ","%char)) kw = true)
         (keywords_of keywords_param).
Proof.
  unfold keywords_of. apply Forall_forall. intros kw Hkw.
  apply list_elem_of_In, in_map_iff in Hkw as (k & <- & Hk).
  apply filter_In in Hk as [Hk Hne]. split; [|split].
  - intros Heq. by rewrite Heq in Hne.
  - apply strip_stripped.
  - apply strip_forallb.
    pose proof (split_on_fields "," keywords_param) as Hf.
    rewrite Forall_forall in Hf. by apply Hf, list_elem_of_In.
Qed.

(** ** Scanning stripped and joined texts *)

Section ScanWords.

Variable keep : ascii → bool.
Hypothesis keep_space : ∀ c, Char.isspace c = true → keep c = false.

Lemma scan_lstrip (s : string) :
  Str.scan keep "" (Str.lstrip s) = Str.scan keep "" s.
Proof using keep_space.
  induction s as [|c s IH]; [done|]. simpl.
  destruct (Char.isspace c) eqn:Hc; [|done]. by rewrite (keep_space c Hc).
Qed.

Lemma scan_rstrip (s cur : string) :
  Str.scan keep cur (Str.rstrip s) = Str.scan keep cur s.
Proof using keep_space.
  revert cur. induction s as [|c s IH]; intros cur; [done|].
  cbn [Str.rstrip]. destruct (Str.rstrip s) as [|d r].
  - destruct (Char.isspace c) eqn:Hc.
    + cbn [Str.scan]. rewrite (keep_space c Hc), <- IH. simpl.
      by rewrite (right_id_L [] (++)%list).
    + cbn [Str.scan]. destruct (keep c); by rewrite <- IH.
  - cbn [Str.scan]. destruct (keep c); by rewrite <- IH.
Qed.

Lemma scan_strip (s : string) :
  Str.scan keep "" (Str.strip s) = Str.scan keep "" s.
Proof using keep_space. unfold Str.strip. by rewrite scan_rstrip, scan_lstrip. Qed.

(** The runs of a space-joined text are the runs of its parts. *)
Lemma scan_join (l : list string) :
  Str.scan keep "" (Str.join " " l) = flat_map (Str.scan keep "") l.
Proof using keep_space.
  induction l as [|x l IH]; [done|].
  destruct l as [|y l].
  - simpl. by rewrite (right_id_L [] (++)%list).
  - change (Str.join " " (x :: y :: l)) with (x +:+ String " " (Str.join " " (y :: l))).
    rewrite scan_app_sep by (by apply keep_space). by rewrite IH.
Qed.

(** The runs of the extracted text are the runs of the leading texts of
    the nodes, in document order. *)
Lemma scan_parse_ecfr_tree (root : element) :
  Str.scan keep "" (parse_ecfr_tree root)
  = flat_map (λ e, Str.scan keep "" (default "" (elem_text e))) (iter root).
Proof using keep_space.
  rewrite parse_ecfr_tree_leading_texts, scan_join. unfold leading_texts.
  induction (iter root) as [|e l IH]; [done|]. cbn.
  destruct (elem_text e) as [[|c t]|]; simpl; [done| |done].
  by rewrite IH, scan_strip.
Qed.

End ScanWords.

Lemma alpha_not_space (c : ascii) : Char.isspace c = true → Char.is_alpha c = false.
Proof. all_chars c. Qed.

Lemma emit_lower (cur : string) :
  Str.emit (Str.lower cur) = map Str.lower (Str.emit cur).
Proof. by destruct cur. Qed.

(** Lowercasing commutes with cutting a text into its letter runs. *)
Lemma scan_lower (s cur : string) :
  Str.scan Char.is_alpha (Str.lower cur) (Str.lower s)
  = map Str.lower (Str.scan Char.is_alpha cur s).
Proof.
  revert cur. induction s as [|c s IH]; intros cur; simpl; [apply emit_lower|].
  rewrite lower_alpha. destruct (Char.is_alpha c).
  - rewrite <- IH. by rewrite str_lower_app.
  - by rewrite map_app, <- emit_lower, <- (IH "").
Qed.

Lemma tokens_of_findall (text : string) :
  tokens_of text = map Str.lower (Str.findall_alpha text).
Proof. apply (scan_lower text ""). Qed.

Lemma map_flat_map {A B C : Type} (g : B → C) (f : A → list B) (l : list A) :
  map g (flat_map f l) = flat_map (λ x, map g (f x)) l.
Proof. induction l as [|x l IH]; [done|]. simpl. by rewrite map_app, IH. Qed.

(** X2: the words of the extracted text are the words of the leading
    texts of the nodes, node after node in document order: no word is
    made of characters of two nodes, and a node whose text is empty or
    whitespace adds none. The same holds of the token stream from which
    the top words are taken. *)
Theorem extracted_words (root : element) :
  Str.split (parse_ecfr_tree root)
  = flat_map (λ e, Str.split (default "" (elem_text e))) (iter root)
  ∧ tokens_of (parse_ecfr_tree root)
    = flat_map (λ e, tokens_of (default "" (elem_text e))) (iter root).
Proof.
  split.
  - apply scan_parse_ecfr_tree. by intros c ->.
  - rewrite tokens_of_findall. unfold Str.findall_alpha.
    rewrite (scan_parse_ecfr_tree _ alpha_not_space), map_flat_map.
    apply flat_map_ext. intros e. by rewrite tokens_of_findall.
Qed.

(** ** Bounds on the counts *)

Lemma occurrences_bound (sub s : string) (n : nat) :
  occurrences sub s n → (n * String.length sub ≤ String.length s)%nat.
Proof.
  induction 1 as [s|c s n _ IH|s n _ IH]; simpl; [lia|lia|].
  rewrite str_app_length. lia.
Qed.

Lemma occurrences_prepend (sub s s' : string) (n : nat) :
  occurrences sub s' n → occurrences sub (s +:+ s') n.
Proof.
  intros H. induction s as [|c s IH]; [done|].
  rewrite str_app_cons. by apply occ_skip.
Qed.

Lemma occurrences_app (sub s s' : string) (n n' : nat) :
  occurrences sub s n → occurrences sub s' n' →
  occurrences sub (s +:+ s') (n + n').
Proof.
  intros H H'. induction H as [s|c s n _ IH|s n _ IH].
  - by apply occurrences_prepend.
  - rewrite str_app_cons. by apply occ_skip.
  - rewrite str_app_assoc. by apply (occ_hit sub _ (n + n')).
Qed.

(** [s.count(sub)] times [len(sub)] is at most [len(s)]. *)
Lemma count_bound (s sub : string) :
  sub ≠ "" →
  0 ≤ Str.count s sub
  ∧ Str.count s sub * Z.of_nat (String.length sub) ≤ Z.of_nat (String.length s).
Proof.
  intros Hne. destruct (count_spec s sub Hne) as (n & -> & Hocc & _).
  apply occurrences_bound in Hocc. split; [lia|]. nia.
Qed.

(** Counting in a concatenation finds at least what is in the parts. *)
Lemma count_app (s s' sub : string) :
  sub ≠ "" → Str.count s sub + Str.count s' sub ≤ Str.count (s +:+ s') sub.
Proof.
  intros Hne.
  destruct (count_spec s sub Hne) as (n & -> & Hocc & _).
  destruct (count_spec s' sub Hne) as (n' & -> & Hocc' & _).
  destruct (count_spec (s +:+ s') sub Hne) as (k & -> & _ & Hmax).
  pose proof (Hmax _ (occurrences_app _ _ _ _ _ Hocc Hocc')). lia.
Qed.

(** A text in which no character is as some character of [sub] has no
    occurrence of [sub]. *)
Lemma count_go_foreign (q : ascii → bool) (sub s : string) (k : nat) :
  Str.forallb q s = true → Str.forallb q sub = false →
  Str.count_go sub k s = 0%nat.
Proof.
  intros Hs Hsub. revert k Hs. induction s as [|c s IH]; intros k Hs; [done|].
  simpl in Hs. apply andb_true_iff in Hs as [Hc Hs].
  destruct k as [|k]; cbn [Str.count_go]; [|by apply IH].
  destruct (String.prefix sub (String c s)) eqn:Hp; [|by apply IH].
  apply prefix_split in Hp.
  assert (Hall : Str.forallb q (String c s) = true) by (simpl; by rewrite Hc, Hs).
  rewrite Hp, str_forallb_app, Hsub in Hall. done.
Qed.

Lemma agency_nonempty (c : string) : c ∈ agencies_to_check → c ≠ "".
Proof.
  intros Hc ->.
  by repeat (apply elem_of_cons in Hc as [?|Hc]; [done|]); apply elem_of_nil in Hc.
Qed.

Lemma agency_has_upper (c : string) :
  c ∈ agencies_to_check →
  Str.forallb (λ a, negb (Char.is_upper_ascii a)) c = false.
Proof.
  intros Hc.
  repeat (apply elem_of_cons in Hc as [->|Hc]; [done|]). by apply elem_of_nil in Hc.
Qed.

Lemma agencies_dom (t : string) :
  dom (agencies (analyze_ecfr_text t)) = list_to_set agencies_to_check.
Proof.
  unfold analyze_ecfr_text. cbn [agencies].
  rewrite (fill_dom (Str.count t)). by rewrite dom_empty_L, (right_id_L ∅ (∪)).
Qed.

(** X3: every analysis has exactly the five agency codes as keys, also
    those that do not occur; each count is non-negative and, multiplied by
    the length of its code, at most the length of the text. *)
Theorem agencies_shape (t c : string) :
  c ∈ agencies_to_check →
  dom (agencies (analyze_ecfr_text t)) = {[ "NCPC"; "OMB"; "OPM"; "NARA"; "CIO" ]}
  ∧ ∃ n, agencies (analyze_ecfr_text t) !! c = Some n
         ∧ 0 ≤ n
         ∧ n * Z.of_nat (String.length c) ≤ Z.of_nat (String.length t).
Proof.
  intros Hc. split.
  - rewrite agencies_dom. unfold agencies_to_check. simpl. set_solver.
  - exists (Str.count t c). rewrite agencies_lookup, decide_True by done.
    split; [done|]. by apply count_bound, agency_nonempty.
Qed.

Lemma agencies_shape_witness :
  "NARA" ∈ agencies_to_check
  ∧ ∃ n, agencies (analyze_ecfr_text "NARA") !! "NARA" = Some n
         ∧ n * 4 ≤ 4.
Proof.
  assert (H : "NARA" ∈ agencies_to_check) by (do 3 right; by left).
  split; [exact H|].
  destruct (agencies_shape "NARA" "NARA" H) as [_ (n & Hn & _ & Hle)].
  exists n. split; [exact Hn|exact Hle].
Defined.

(** X4: agency counting is case-sensitive: a text without upper-case
    ASCII letters, such as a lowercased text, has count zero for every
    agency code. *)
Theorem agencies_case_sensitive (t c : string) :
  c ∈ agencies_to_check →
  Str.forallb (λ a, negb (Char.is_upper_ascii a)) t = true →
  agencies (analyze_ecfr_text t) !! c = Some 0
  ∧ agencies (analyze_ecfr_text (Str.lower t)) !! c = Some 0.
Proof.
  intros Hc Ht.
  assert (Hzero : ∀ s, Str.forallb (λ a, negb (Char.is_upper_ascii a)) s = true →
                       agencies (analyze_ecfr_text s) !! c = Some 0).
  { intros s Hs. rewrite agencies_lookup, decide_True by done. f_equal.
    pose proof (agency_nonempty c Hc) as Hne. destruct c as [|a c']; [done|].
    unfold Str.count.
    by rewrite (count_go_foreign _ _ _ _ Hs (agency_has_upper _ Hc)). }
  split; [by apply Hzero|apply Hzero, str_lower_no_upper].
Qed.

Lemma agencies_case_sensitive_witness :
  "OMB" ∈ agencies_to_check
  ∧ agencies (analyze_ecfr_text "the omb reviewed omb policy.") !! "OMB" = Some 0.
Proof.
  assert (H : "OMB" ∈ agencies_to_check) by (right; by left).
  split; [exact H|].
  exact (proj1 (agencies_case_sensitive "the omb reviewed omb policy." "OMB" H eq_refl)).
Defined.

(** X5: joining two texts never loses agency mentions: the count in the
    concatenation is at least the sum of the counts in the parts (it can
    be larger, when a code straddles the joint). *)
Theorem agencies_concat (t t' c : string) :
  c ∈ agencies_to_check →
  get0 (agencies (analyze_ecfr_text t)) c + get0 (agencies (analyze_ecfr_text t')) c
  ≤ get0 (agencies (analyze_ecfr_text (t +:+ t'))) c.
Proof.
  intros Hc. unfold get0. rewrite !agencies_lookup, !decide_True by done. simpl.
  by apply count_app, agency_nonempty.
Qed.

Lemma agencies_concat_witness :
  "OMB" ∈ agencies_to_check
  ∧ get0 (agencies (analyze_ecfr_text "OMB O")) "OMB"
    + get0 (agencies (analyze_ecfr_text "MB")) "OMB"
    ≤ get0 (agencies (analyze_ecfr_text ("OMB O" +:+ "MB"))) "OMB".
Proof.
  assert (H : "OMB" ∈ agencies_to_check) by (right; by left).
  split; [exact H|]. exact (agencies_concat "OMB O" "MB" "OMB" H).
Defined.

(** X6: the count reported for a non-empty keyword is non-negative and,
    multiplied by the length of the lowercased keyword, at most the length
    of the lowercased text (the two strings that are searched); when the
    lowercased keyword is longer than the lowercased text the count is
    zero. *)
Theorem keyword_count_bound (t : string) (kws : list string) (kw : string) :
  kw ∈ kws → Str.lower kw ≠ "" →
  ∃ n, keyword_frequencies t kws !! kw = Some n
       ∧ 0 ≤ n
       ∧ n * Z.of_nat (String.length (Str.lower kw))
         ≤ Z.of_nat (String.length (Str.lower t))
       ∧ ((String.length (Str.lower t) < String.length (Str.lower kw))%nat → n = 0).
Proof.
  intros Hkw Hne. exists (Str.count (Str.lower t) (Str.lower kw)).
  rewrite keyword_frequencies_lookup, decide_True by done.
  pose proof (count_bound (Str.lower t) (Str.lower kw) Hne) as [H0 Hle].
  repeat split; [done..|]. nia.
Qed.

Lemma keyword_count_bound_witness :
  "records" ∈ ["privacy"; "records"] ∧ Str.lower "records" ≠ ""
  ∧ keyword_frequencies "Rec" ["privacy"; "records"] !! "records" = Some 0.
Proof.
  assert (H1 : "records" ∈ ["privacy"; "records"]) by (right; by left).
  assert (H2 : Str.lower "records" ≠ "") by discriminate.
  split; [exact H1|]. split; [exact H2|].
  destruct (keyword_count_bound "Rec" _ _ H1 H2) as (n & Hn & _ & _ & Hz).
  rewrite Hn. f_equal. apply Hz. simpl. lia.
Defined.

Lemma str_forallb_ext (p q : ascii → bool) (s : string) :
  (∀ c, p c = q c) → Str.forallb p s = Str.forallb q s.
Proof. intros H. induction s as [|c s IH]; [done|]. simpl. by rewrite H, IH. Qed.

(** ** Bounds on the number of runs *)

Section RunsCount.

Variable keep : ascii → bool.

Lemma starts_run (w s : string) :
  w ≠ "" → Str.forallb keep w = true → Str.starts keep (w +:+ s) = true.
Proof.
  destruct w as [|c w]; [done|]. simpl. by intros _ [? _]%andb_true_iff.
Qed.

(** Runs are separated by at least one character. *)
Lemma maximal_runs_length (s : string) (l : list string) :
  maximal_runs keep s l →
  (2 * List.length l ≤ String.length s + 1)%nat
  ∧ (Str.starts keep s = false → 2 * List.length l ≤ String.length s)%nat.
Proof.
  induction 1 as [|c s l Hc _ [IH1 IH2]|w s l Hne Hw Hs _ [IH1 IH2]]; simpl.
  - lia.
  - lia.
  - rewrite str_app_length. specialize (IH2 Hs).
    assert (1 ≤ String.length w)%nat by (destruct w; [done|simpl; lia]).
    split; [lia|]. by rewrite starts_run.
Qed.

Lemma maximal_runs_none (s : string) :
  maximal_runs keep s [] ↔ Str.forallb (λ c, negb (keep c)) s = true.
Proof.
  split.
  - remember [] as l eqn:Hl. induction 1 as [|c s l Hc _ IH|]; [done| |done].
    simpl. rewrite Hc. simpl. auto.
  - induction s as [|c s IH]; simpl; [constructor|].
    intros [Hc Hs]%andb_true_iff. apply mr_skip; [|auto].
    by destruct (keep c).
Qed.

End RunsCount.

(** X7: the word count is zero exactly for a text of whitespace only (the
    empty text included), and twice the word count is at most the length
    of the text plus one, words being separated by whitespace. *)
Theorem word_count_bounds (t : string) :
  (word_count (analyze_ecfr_text t) = 0 ↔ Str.forallb Char.isspace t = true)
  ∧ 0 ≤ word_count (analyze_ecfr_text t)
  ∧ 2 * word_count (analyze_ecfr_text t) ≤ Z.of_nat (String.length t) + 1.
Proof.
  pose proof (proj1 (scan_sound (λ c, negb (Char.isspace c)) t)) as Hruns.
  fold (Str.split t) in Hruns.
  unfold analyze_ecfr_text. cbn [word_count]. split; [|split; [lia|]].
  - rewrite <- (str_forallb_ext (λ c, negb (negb (Char.isspace c))))
      by (intros c; apply negb_involutive).
    rewrite <- maximal_runs_none, maximal_runs_iff. fold (Str.split t).
    destruct (Str.split t); simpl; [done|]. split; [lia|done].
  - apply maximal_runs_length in Hruns as [H _]. lia.
Qed.

(** X8: a whitespace character between two texts keeps their words
    apart: the word count of the whole is the sum of the word counts. *)
Theorem word_count_additive (u v : string) (c : ascii) :
  Char.isspace c = true →
  word_count (analyze_ecfr_text (u +:+ String c v))
  = word_count (analyze_ecfr_text u) + word_count (analyze_ecfr_text v).
Proof.
  intros Hc. unfold analyze_ecfr_text. cbn [word_count]. unfold Str.split.
  rewrite scan_app_sep by (by rewrite Hc). rewrite List.length_app. lia.
Qed.

Lemma word_count_additive_witness :
  Char.isspace "010" = true
  ∧ word_count (analyze_ecfr_text ("The OMB" +:+ String "010" "reviewed it")) = 4.
Proof.
  split; [reflexivity|].
  rewrite (word_count_additive "The OMB" "reviewed it" "010" eq_refl). reflexivity.
Defined.

(** ** The most common words *)

Lemma insert_desc_Permutation (x : string * Z) (l : list (string * Z)) :
  insert_desc x l ≡ₚ x :: l.
Proof.
  induction l as [|y l IH]; [done|]. simpl.
  destruct (x.2 <? y.2); [|done]. by rewrite IH, Permutation_swap.
Qed.

Lemma sorted_desc_Permutation (l : list (string * Z)) : sorted_desc l ≡ₚ l.
Proof.
  induction l as [|x l IH]; [done|]. simpl.
  by rewrite insert_desc_Permutation, IH.
Qed.

Lemma occ_count_pos (w : string) (l : list string) : w ∈ l → 1 ≤ occ_count w l.
Proof.
  unfold occ_count. induction l as [|x l IH]; [by intros ?%elem_of_nil|].
  intros Hw. simpl. destruct (decide (x = w)) as [->|Hne].
  - rewrite bool_decide_eq_true_2 by done. simpl. lia.
  - rewrite bool_decide_eq_false_2 by done.
    apply elem_of_cons in Hw as [?|Hw]; [congruence|]. by apply IH.
Qed.

Lemma Counter_length (l : list string) :
  List.length (Counter l) = List.length (remove_dups l).
Proof.
  destruct (Counter_spec l) as (Hnd & Hin & _ & _).
  rewrite <- (length_fmap fst (Counter l)). apply Permutation_length.
  apply NoDup_Permutation; [done|apply NoDup_remove_dups|].
  intros w. by rewrite Hin, elem_of_remove_dups.
Qed.

(** X9: no word is listed twice among the top words, every listed count
    is at least one, and the list has [n] entries unless fewer distinct
    words were retained, in which case it has them all; it is empty for
    [n <= 0]. *)
Theorem top_words_distinct (text : string) (n : Z) :
  NoDup (get_top_words text n).*1
  ∧ Forall (λ e, 1 ≤ e.2) (get_top_words text n)
  ∧ List.length (get_top_words text n)
    = Nat.min (Z.to_nat n) (List.length (remove_dups (filtered_of text)))
  ∧ (n ≤ 0 → get_top_words text n = []).
Proof.
  destruct (Counter_spec (filtered_of text)) as (Hnd & Hin & _ & Hcnt).
  split; [|split; [|split]].
  - unfold get_top_words, most_common. rewrite fmap_take.
    eapply sublist_NoDup; [|apply sublist_take].
    by rewrite sorted_desc_Permutation.
  - apply Forall_forall. intros e He.
    pose proof (get_top_words_key _ _ _ He) as Hkey.
    apply get_top_words_elem in He. rewrite Forall_forall in Hcnt.
    rewrite (Hcnt e He). by apply occ_count_pos.
  - unfold get_top_words, most_common.
    by rewrite length_take, (Permutation_length (sorted_desc_Permutation _)),
      Counter_length.
  - intros Hn. unfold get_top_words, most_common.
    by replace (Z.to_nat n) with 0%nat by lia.
Qed.

(** X10: the listed words are the most frequent ones: a retained word
    that is not listed occurs at most as often as every listed word. *)
Theorem top_words_dominate (text : string) (n : Z) (w : string) (e : string * Z) :
  w ∈ filtered_of text →
  w ∉ (get_top_words text n).*1 →
  e ∈ get_top_words text n →
  occ_count w (filtered_of text) ≤ e.2.
Proof.
  intros Hw Hout He.
  destruct (Counter_spec (filtered_of text)) as (_ & Hin & Hkeys & Hcnt).
  pose proof (proj1 (ordered_fmap _ _ _) Hkeys) as Hseen.
  pose proof (sorted_desc_ordered (filtered_of text) _ Hseen) as Hsorted.
  apply Hin, list_elem_of_fmap in Hw as ([w' v] & -> & Hwv). simpl in *.
  rewrite Forall_forall in Hcnt.
  pose proof (Hcnt _ Hwv) as Hv. simpl in Hv. rewrite <- Hv.
  apply elem_of_sorted_desc, list_elem_of_lookup in Hwv as [j Hj].
  unfold get_top_words, most_common in He, Hout.
  apply elem_of_take in He as (i & Hi & Hlt).
  destruct (decide (j < Z.to_nat n)%nat) as [Hjn|Hjn].
  - exfalso. apply Hout, list_elem_of_fmap. exists (w', v). split; [done|].
    apply elem_of_take. by exists j.
  - destruct (Hsorted i j e (w', v) Hi Hj ltac:(lia)) as [?|[? _]]; simpl in *; lia.
Qed.

Lemma top_words_dominate_witness :
  "omb" ∈ filtered_of "rule rule omb agency agency"
  ∧ ("agency", 2) ∈ get_top_words "rule rule omb agency agency" 2
  ∧ occ_count "omb" (filtered_of "rule rule omb agency agency") ≤ 2.
Proof.
  assert (Hf : filtered_of "rule rule omb agency agency"
               = ["rule"; "rule"; "omb"; "agency"; "agency"]) by (by vm_compute).
  assert (Ht : get_top_words "rule rule omb agency agency" 2
               = [("rule", 2); ("agency", 2)]) by (by vm_compute).
  assert (H1 : "omb" ∈ filtered_of "rule rule omb agency agency").
  { rewrite Hf. do 2 right. by left. }
  assert (H2 : "omb" ∉ (get_top_words "rule rule omb agency agency" 2).*1).
  { rewrite Ht. intros H. cbn in H.
    repeat (apply elem_of_cons in H as [H|H]; [discriminate|]).
    by apply elem_of_nil in H. }
  assert (H3 : ("agency", 2) ∈ get_top_words "rule rule omb agency agency" 2).
  { rewrite Ht. right. by left. }
  split; [exact H1|]. split; [exact H3|].
  exact (top_words_dominate "rule rule omb agency agency" 2 "omb" ("agency", 2) H1 H2 H3).
Defined.

(** ** Chains of comparisons *)

Lemma agencies_diff_get0 (a b : snapshot) (k : string) :
  get0 (agencies_diff (compare_two_snapshots a b)) k
  = get0 (agencies (snap_analysis b)) k - get0 (agencies (snap_analysis a)) k.
Proof.
  unfold get0 at 1. rewrite agencies_diff_lookup.
  case_decide as Hk; [done|].
  apply not_elem_of_union in Hk as [Ha Hb].
  apply not_elem_of_dom in Ha, Hb. unfold get0. by rewrite Ha, Hb.
Qed.

(** X11: the deltas of successive comparisons add up: going from [a] to
    [c] changes the word count, and the count of every agency (absent
    entries read as zero), by the change from [a] to [b] plus the change
    from [b] to [c]. *)
Theorem compare_chain (a b c : snapshot) (k : string) :
  word_count_change (compare_two_snapshots a c)
  = word_count_change (compare_two_snapshots a b)
    + word_count_change (compare_two_snapshots b c)
  ∧ get0 (agencies_diff (compare_two_snapshots a c)) k
    = get0 (agencies_diff (compare_two_snapshots a b)) k
      + get0 (agencies_diff (compare_two_snapshots b c)) k.
Proof. split; [simpl; lia|]. rewrite !agencies_diff_get0. lia. Qed.

(** X12: comparing two analyses made by the analyzer gives a delta for
    each of the five agency codes and no other key: the count in the
    second text minus the count in the first; the word-count change is
    the difference of the numbers of words. *)
Theorem compare_analyses (da db ta tb : string) (text_a text_b c : string) :
  c ∈ agencies_to_check →
  let a := Snapshot da ta (analyze_ecfr_text text_a) in
  let b := Snapshot db tb (analyze_ecfr_text text_b) in
  dom (agencies_diff (compare_two_snapshots a b)) = list_to_set agencies_to_check
  ∧ agencies_diff (compare_two_snapshots a b) !! c
    = Some (Str.count text_b c - Str.count text_a c)
  ∧ word_count_change (compare_two_snapshots a b)
    = Z.of_nat (List.length (Str.split text_b))
      - Z.of_nat (List.length (Str.split text_a)).
Proof.
  intros Hc a b. split; [|split; [|done]].
  - rewrite agencies_diff_dom. subst a b. cbn [snap_analysis].
    rewrite !agencies_dom. apply (idemp_L (∪)).
  - rewrite agencies_diff_lookup. subst a b. cbn [snap_analysis].
    rewrite !agencies_dom, (idemp_L (∪)).
    rewrite decide_True by (by apply elem_of_list_to_set).
    unfold get0. by rewrite !agencies_lookup, !decide_True.
Qed.

Lemma compare_analyses_witness :
  "OMB" ∈ agencies_to_check
  ∧ agencies_diff
      (compare_two_snapshots
         (Snapshot "2022-01-01" "1" (analyze_ecfr_text "OMB"))
         (Snapshot "2023-01-01" "1" (analyze_ecfr_text "OMB and OMB"))) !! "OMB"
    = Some 1.
Proof.
  assert (H : "OMB" ∈ agencies_to_check) by (right; by left).
  split; [exact H|].
  destruct (compare_analyses "2022-01-01" "2023-01-01" "1" "1"
                             "OMB" "OMB and OMB" "OMB" H) as (_ & Hd & _).
  rewrite Hd. reflexivity.
Defined.

(** ** The routes *)

Section Routes.

Variable get_text : string → result string.
Variable get_json : string → result (list version).
Variable fromstring : string → result element.

Lemma analyze_snapshot_of (date title : option string) (slot : store) :
  (analyze get_text fromstring date title slot).2
  = match snapshot_of get_text fromstring (date, title) with
    | Some r => Some r
    | None => slot
    end.
Proof.
  unfold snapshot_of, analyze. cbn [fst snd].
  by destruct (_ ≫= _).
Qed.

End Routes.

(** X13: after any sequence of requests to [analyze], the retrieval
    route answers with the snapshot of the last request that succeeded;
    when none succeeded it answers as it did before the sequence (with
    "no results yet" on a fresh slot). *)
Theorem results_after_requests
    (get_text : string → result string) (fromstring : string → result element)
    (reqs : list (option string * option string)) (slot : store) :
  results_after get_text fromstring reqs slot
  = match last (omap (snapshot_of get_text fromstring) reqs) with
    | Some r => RespAnalysis r
    | None => results slot
    end
  ∧ results_after get_text fromstring [] None = RespNoResults.
Proof.
  split; [|done]. unfold results_after. revert slot.
  induction reqs as [|[date title] reqs IH]; intros slot; [done|].
  cbn [foldl fst snd]. rewrite IH, analyze_snapshot_of. cbn.
  destruct (snapshot_of get_text fromstring (date, title)) as [r|]; [|done].
  rewrite last_cons. by destruct (last _).
Qed.


Lemma filter_nil_iff {A : Type} (f : A → bool) (l : list A) :
  List.filter f l = [] ↔ Forall (λ x, f x = false) l.
Proof.
  induction l as [|x l IH]; simpl; [by split|].
  destruct (f x) eqn:Hx.
  - split; [done|]. intros [? _]%Forall_cons. congruence.
  - rewrite IH. split; [by constructor|by intros [_ ?]%Forall_cons].
Qed.

Lemma rstrip_empty (s : string) :
  Str.rstrip s = "" ↔ Str.forallb Char.isspace s = true.
Proof.
  induction s as [|c s IH]; simpl; [done|].
  destruct (Str.rstrip s) as [|d r].
  - destruct (Char.isspace c); simpl; [tauto|]. split; [done|done].
  - split; [done|]. intros [_ Hs]%andb_true_iff. by apply IH in Hs.
Qed.

Lemma lstrip_isspace (s : string) :
  Str.forallb Char.isspace (Str.lstrip s) = Str.forallb Char.isspace s.
Proof.
  induction s as [|c s IH]; [done|]. simpl.
  destruct (Char.isspace c) eqn:Hc; [done|]. simpl. by rewrite Hc.
Qed.

Lemma strip_empty (s : string) :
  Str.strip s = "" ↔ Str.forallb Char.isspace s = true.
Proof. unfold Str.strip. by rewrite rstrip_empty, lstrip_isspace. Qed.

Lemma split_on_blank (sep : ascii) (s : string) :
  Forall (λ k, Str.forallb Char.isspace k = true) (Str.split_on sep s)
  ↔ Str.forallb (λ c, Char.isspace c || bool_decide (c = sep)) s = true.
Proof.
  induction s as [|c s IH]; simpl.
  - split; [done|]. by repeat constructor.
  - destruct (decide (c = sep)) as [->|Hne].
    + rewrite bool_decide_eq_true_2, orb_true_r by done. simpl.
      rewrite Forall_cons, IH. simpl. tauto.
    + rewrite bool_decide_eq_false_2, orb_false_r, andb_true_iff, <- IH by done.
      destruct (Str.split_on sep s) as [|w l]; simpl.
      * rewrite !Forall_cons. simpl. rewrite andb_true_r.
        split; [intros [? _]; by split|]. intros [? _]. by split.
      * rewrite !Forall_cons. simpl. rewrite andb_true_iff. tauto.
Qed.

(** X15: the search has no keyword at all exactly when its parameter
    consists of whitespace and commas only (the empty and the absent
    parameter included); the result mapping is then empty. *)
Theorem keywords_of_blank (keywords_param text_data : string) :
  (keywords_of keywords_param = []
   ↔ Str.forallb (λ c, Char.isspace c || bool_decide (c = ","%char)) keywords_param
     = true)
  ∧ (keywords_of keywords_param = [] →
     keyword_frequencies text_data (keywords_of keywords_param) = ∅)
  ∧ keywords_of (default "" None) = [].
Proof.
  split; [|split; [by intros ->|done]].
  unfold keywords_of. rewrite <- split_on_blank.
  split.
  - intros H%map_eq_nil. apply filter_nil_iff in H.
    eapply Forall_impl; [exact H|]. simpl. intros k Hk.
    apply strip_empty. apply negb_false_iff in Hk. by apply String.eqb_eq.
  - intros H.
    assert (Hnone : List.filter (λ k, negb (Str.strip k =? "")%string)
                                (Str.split_on "," keywords_param) = []); [|by rewrite Hnone].
    apply filter_nil_iff.
    eapply Forall_impl; [exact H|]. simpl. intros k Hk.
    apply negb_false_iff, String.eqb_eq. by apply strip_empty.
Qed.

(** X16: the comparison route answers with a comparison only when both
    snapshots were fetched and analyzed; the comparison is then that of
    the two snapshots it returns, which carry the requested dates and the
    common title, and it has a delta for each of the five agency codes.
    If any of the four steps fails the answer is an error. *)
Theorem compare_route
    (get_text : string → result string) (fromstring : string → result element)
    (date1 date2 title : option string) :
  let all_steps (a b : analysis) :=
    ∃ xml_a root_a xml_b root_b,
      fetch_ecfr_xml get_text (default "2022-01-01" date1) (default "1" title) = Ok xml_a
      ∧ fromstring xml_a = Ok root_a
      ∧ fetch_ecfr_xml get_text (default "2023-01-01" date2) (default "1" title) = Ok xml_b
      ∧ fromstring xml_b = Ok root_b
      ∧ a = analyze_ecfr_text (parse_ecfr_tree root_a)
      ∧ b = analyze_ecfr_text (parse_ecfr_tree root_b) in
  match compare get_text fromstring date1 date2 title with
  | RespComparison a b c =>
      c = compare_two_snapshots a b
      ∧ a = Snapshot (default "2022-01-01" date1) (default "1" title) (snap_analysis a)
      ∧ b = Snapshot (default "2023-01-01" date2) (default "1" title) (snap_analysis b)
      ∧ all_steps (snap_analysis a) (snap_analysis b)
      ∧ dom (agencies_diff c) = list_to_set agencies_to_check
  | RespError _ => ∀ a b, ¬ all_steps a b
  | _ => False
  end.
Proof.
  intros all_steps. subst all_steps. cbv beta.
  unfold compare, parse_and_analyze_ecfr_xml, parse_ecfr_xml.
  unfold mbind, result_mbind, result_bind, mret, result_mret.
  destruct (fetch_ecfr_xml get_text (default "2022-01-01" date1) _)
    as [xml_a|e] eqn:Ha.
  2:{ intros a b (? & ? & ? & ? & [=] & _). }
  destruct (fromstring xml_a) as [root_a|e] eqn:Hra.
  2:{ intros a b (? & ? & ? & ? & [= <-] & ? & _). congruence. }
  destruct (fetch_ecfr_xml get_text (default "2023-01-01" date2) _)
    as [xml_b|e] eqn:Hb.
  2:{ intros a b (? & ? & ? & ? & _ & _ & [=] & _). }
  destruct (fromstring xml_b) as [root_b|e] eqn:Hrb.
  2:{ intros a b (? & ? & ? & ? & _ & _ & [= <-] & ? & _). congruence. }
  split; [done|]. split; [done|]. split; [done|]. split.
  - by exists xml_a, root_a, xml_b, root_b.
  - rewrite agencies_diff_dom. cbn [snap_analysis].
    rewrite !agencies_dom. apply (idemp_L (∪)).
Qed.

(** X17: the keyword route answers with frequencies only when the text
    was fetched and extracted; the listed keywords are those read from
    the parameter, the keys of the mapping are exactly the listed
    keywords, and the counts are taken on the extracted text. If the
    fetch or the extraction fails the answer is an error, also when no
    keyword was asked for. *)
Theorem keyword_search_route
    (get_text : string → result string) (fromstring : string → result element)
    (date title keywords : option string) :
  match keyword_search get_text fromstring date title keywords with
  | RespKeywords d t kws freqs =>
      d = default "2025-01-01" date ∧ t = default "1" title
      ∧ kws = keywords_of (default "" keywords)
      ∧ dom freqs = list_to_set kws
      ∧ ∃ xml_data root,
          fetch_ecfr_xml get_text d t = Ok xml_data
          ∧ fromstring xml_data = Ok root
          ∧ freqs = keyword_frequencies (parse_ecfr_tree root) kws
  | RespError _ =>
      ∀ xml_data root,
        fetch_ecfr_xml get_text (default "2025-01-01" date) (default "1" title)
        = Ok xml_data → fromstring xml_data ≠ Ok root
  | _ => False
  end.
Proof.
  unfold keyword_search, parse_ecfr_xml.
  unfold mbind, result_mbind, result_bind, mret, result_mret.
  destruct (fetch_ecfr_xml _ _ _) as [xml_data|e] eqn:Hx; [|done].
  destruct (fromstring xml_data) as [root|e] eqn:Hr.
  - do 3 (split; [done|]). split; [|by exists xml_data, root].
    unfold keyword_frequencies.
    rewrite (fill_dom (λ kw, Str.count (Str.lower (parse_ecfr_tree root)) (Str.lower kw))).
    by rewrite dom_empty_L, (right_id_L ∅ (∪)).
  - intros ? ? [= <-]. congruence.
Qed.
